(** * update-stats.js: contribution statistics and README patching

    A shallow embedding of [scripts/update-stats.js].  The script fetches
    the daily contribution calendar of one account, reduces it to three
    numbers ([computeStats]), renders them as a badge block
    ([renderStats]) and splices the block into the README between two
    marker comments ([injectStats]).

    Conventions of the embedding:
    - a JavaScript string is a [list ascii] of its code units; the two
      markers and the rendered block are plain ASCII, and searching and
      replacing use nothing of a character but its equality with
      another;
    - the [count] of a day handed to [computeStats] is an integer-valued
      Number, kept as a [Z]; [computeStats] sums the counts as integers,
      which is what the script does as long as the magnitudes of the
      counts add up to no more than 2^53; [totalOf] follows the total as
      Numbers add up, rounding included;
    - the two streak counters only ever grow by one and are kept as [nat];
    - the file system is a finite map from paths to contents together with
      the log of the writes performed. *)

From Stdlib Require Import ZArith QArith Ascii DecimalString.
From stdpp Require Import gmap strings list sorting.

Local Open Scope Z_scope.

(** ** Statistics: [computeStats] *)

(** One element of the sequence returned by [fetchAllContributionDays]:
    [{ date, count }]. *)
Record Day (N : Type) := mkDay { date : string; count : N }.
Arguments mkDay {N} _ _.
Arguments date {N} _.
Arguments count {N} _.

(** The days [computeStats] reduces: the count is an integer. *)
Abbreviation ContributionDay := (Day Z).

(** The object returned by [computeStats]. *)
Record StatsResult := mkStats {
  total : Z;
  longestStreak : nat;
  currentStreak : nat
}.

(** The three variables of the first loop. *)
Record scanState := mkScan {
  s_total : Z;
  s_longest : nat;
  s_rolling : nat
}.

(** Body of [for (const day of days)]. *)
Definition scanStep (st : scanState) (day : ContributionDay) : scanState :=
  let total := s_total st + count day in
  if 0 <? count day then
    let rolling := (s_rolling st + 1)%nat in
    if (s_longest st <? rolling)%nat
    then mkScan total rolling rolling
    else mkScan total (s_longest st) rolling
  else mkScan total (s_longest st) 0.

(** The first loop, from [total = 0, longestStreak = 0, rolling = 0]. *)
Definition scan (days : list ContributionDay) : scanState :=
  foldl scanStep (mkScan 0 0 0) days.

(** The second loop, [for (let i = days.length - 1; i >= 0; i -= 1)]:
    the argument [n] is [i + 1], so the loop runs while [n] is not zero
    and reads [days[n - 1]].  The index stays below [days.length], so the
    lookup never misses; the code has no branch for a miss. *)
Fixpoint trailing (days : list ContributionDay) (n : nat) (currentStreak : nat) : nat :=
  match n with
  | O => currentStreak
  | S i =>
      match days !! i with
      | Some day =>
          if 0 <? count day
          then trailing days i (currentStreak + 1)%nat
          else currentStreak
      | None => currentStreak
      end
  end.

Definition computeStats (days : list ContributionDay) : StatsResult :=
  let st := scan days in
  let currentStreak := trailing days (length days) 0 in
  mkStats (s_total st) (s_longest st) currentStreak.

(** A day that counts towards a streak. *)
Definition active (day : ContributionDay) : Prop := 0 < count day.

Global Instance active_dec day : Decision (active day).
Proof. unfold active. apply _. Defined.

(** The statistics as the specification words them. *)

(** "sum of all count values" *)
Definition sumCounts (days : list ContributionDay) : Z :=
  foldr (λ day acc, count day + acc) 0 days.

(** Length of the run of active days at the head of a sequence. *)
Fixpoint runLength (days : list ContributionDay) : nat :=
  match days with
  | [] => 0
  | day :: rest => if decide (active day) then S (runLength rest) else 0
  end.

(** "count consecutive trailing days with count > 0": the run at the head
    of the reversed sequence. *)
Definition trailingRun (days : list ContributionDay) : nat :=
  runLength (reverse days).

(** "length of the longest run of consecutive days each with count > 0":
    the longest run over all starting positions. *)
Fixpoint longestRun (days : list ContributionDay) : nat :=
  match days with
  | [] => 0
  | _ :: rest => Nat.max (runLength days) (longestRun rest)
  end.

(** *** The total as Numbers add up *)

(** [day.count] and [total] are Numbers: an integer that a Number holds,
    or, for [total], an infinity once the sum has left their range. *)
Inductive amount :=
  | Finite (z : Z)
  | Infinite (negative : bool).

(** The Number nearest to an integer.  Up to 2^53 in magnitude it is the
    integer itself; beyond, 53 significant bits are kept, a tie going to
    the even neighbour; from 2^1024 on it is an infinity. *)
Definition roundToNumber (z : Z) : amount :=
  let a := Z.abs z in
  if a <? 2 ^ 53 then Finite z
  else
    let e := Z.log2 a - 52 in
    let m := a / 2 ^ e in
    let r := a mod 2 ^ e in
    let half := 2 ^ (e - 1) in
    let m' := if (half <? r) || ((r =? half) && Z.odd m) then m + 1 else m in
    let v := m' * 2 ^ e in
    if 2 ^ 1024 <=? v then Infinite (z <? 0) else Finite (Z.sgn z * v).

(** [total += day.count]: the sum of two Numbers is the Number nearest to
    their sum; an infinity stays what it is when a finite Number is
    added. *)
Definition addCount (acc : amount) (c : Z) : amount :=
  match acc with
  | Finite t => roundToNumber (t + c)
  | Infinite negative => Infinite negative
  end.

(** The variable [total] of [computeStats] when the first loop ends. *)
Definition totalOf (days : list ContributionDay) : amount :=
  foldl (λ acc day, addCount acc (count day)) (Finite 0) days.

(** The sum of the magnitudes of the counts. *)
Definition magnitude (days : list ContributionDay) : Z :=
  foldr (λ day acc, Z.abs (count day) + acc) 0 days.

(** ** Numbers and values of the API response *)

(** A JavaScript Number, as far as the script looks at it: not-a-number,
    a finite value or an infinity.  Every finite double is a rational, so
    [Fin] covers all of them (both zeros are [Fin 0]). *)
Inductive number :=
  | NaN
  | Fin (q : Q)
  | Infinity (negative : bool).

(** What [day.contributionCount] can be once the response body went
    through [response.json()]: a missing property, or a JSON value.  An
    array or object carries the string its [toString] gives, which is what
    [Number] converts. *)
Inductive value :=
  | VUndefined
  | VNull
  | VBool (b : bool)
  | VNumber (n : number)
  | VString (s : string)
  | VObject (str : string).

(** One entry of [contributionDays], one week and one calendar of the
    response. *)
Record rawDay := mkRaw { rawDate : string; contributionCount : value }.
Record week := mkWeek { contributionDays : list rawDay }.
Record calendar := mkCalendar { weeks : list week }.

(** [ToBoolean] of a Number: [NaN] and the zeros are falsy. *)
Definition truthy (n : number) : bool :=
  match n with
  | NaN => false
  | Fin q => negb (Qeq_bool q 0)
  | Infinity _ => true
  end.

(** [a || b] on Numbers. *)
Definition orElse (a b : number) : number := if truthy a then a else b.

(** "count is a non-negative integer". *)
Definition nonNegInteger (n : number) : Prop :=
  match n with
  | Fin q => ∃ k : Z, 0 ≤ k ∧ (q == inject_Z k)%Q
  | _ => False
  end.

(** Every entry of [contributionDays] of every week of every calendar,
    in the order of the responses. *)
Definition rawDays (calendars : list calendar) : list rawDay :=
  cal ← calendars; w ← weeks cal; contributionDays w.

Section Aggregator.

(** The conversion of a string to a Number (the [StringToNumber] of the
    language) and the time value of [new Date(s)], [None] for an invalid
    date, are the runtime's; [today] is the time value of [new Date()]. *)
Variable StringToNumber : string → number.
Variable parseDate : string → option Z.
Variable today : Z.

(** [Number(v)] *)
Definition Number (v : value) : number :=
  match v with
  | VUndefined => NaN
  | VNull => Fin 0
  | VBool true => Fin 1
  | VBool false => Fin 0
  | VNumber n => n
  | VString s => StringToNumber s
  | VObject str => StringToNumber str
  end.

(** [(day) => ({ date: day.date, count: Number(day.contributionCount) || 0 })] *)
Definition toDay (day : rawDay) : Day number :=
  mkDay (rawDate day) (orElse (Number (contributionCount day)) (Fin 0)).

(** [calendar.weeks.flatMap((week) => week.contributionDays.map(...))] *)
Definition flattenCalendar (cal : calendar) : list (Day number) :=
  w ← weeks cal; toDay <$> contributionDays w.

(** The [days] array after the loop over the years: each calendar's
    days pushed in turn. *)
Definition collectDays (calendars : list calendar) : list (Day number) :=
  foldl (λ days cal, days ++ flattenCalendar cal) [] calendars.

(** [new Date(day.date) <= today]: false for an invalid date. *)
Definition notAfterToday (day : Day number) : bool :=
  match parseDate (date day) with
  | Some t => t <=? today
  | None => false
  end.

(** [new Date(a.date) - new Date(b.date) > 0]; a comparison with an
    invalid date is not-a-number, which [sort] takes for a tie. *)
Definition comesAfter (a b : Day number) : bool :=
  match parseDate (date a), parseDate (date b) with
  | Some ta, Some tb => tb <? ta
  | _, _ => false
  end.

(** [Array.prototype.sort] is stable: an element moves behind exactly
    the later elements it compares greater than. *)
Fixpoint insertDay (x : Day number) (sorted : list (Day number)) : list (Day number) :=
  match sorted with
  | [] => [x]
  | y :: rest => if comesAfter x y then y :: insertDay x rest else x :: sorted
  end.

Definition sortDays (days : list (Day number)) : list (Day number) :=
  foldr insertDay [] days.

(** The value [fetchAllContributionDays] resolves to, given the
    calendars fetched for the years in ascending order. *)
Definition fetchAllContributionDays (calendars : list calendar) : list (Day number) :=
  sortDays (filter (λ day, notAfterToday day = true) (collectDays calendars)).

End Aggregator.

(** ** Rendering: [renderStats] *)

(** A string literal as the code units of the JavaScript string. *)
Definition text (s : string) : list ascii := String.list_ascii_of_string s.

Definition START_MARKER : list ascii := text "<!-- GITHUB-STATS:START -->".
Definition END_MARKER : list ascii := text "<!-- GITHUB-STATS:END -->".

(** The double quote and the line feed of the template literal. *)
Definition dquote : ascii := "034"%char.
Definition newline : ascii := "010"%char.

(** Decimal digits of a natural number, most significant first. *)
Definition decimal (n : N) : list ascii :=
  text (DecimalString.NilZero.string_of_uint (N.to_uint n)).

(** The en-US grouping, on the digits taken from the least significant
    one: a comma after every third digit that has a digit after it. *)
Fixpoint groupFromRight (digits : list ascii) : list ascii :=
  match digits with
  | a :: b :: c :: (_ :: _) as more => a :: b :: c :: ","%char :: groupFromRight more
  | _ => digits
  end.

(** [Number(value || 0).toLocaleString('en-US')] of an integer: every
    digit is written, which is what the runtime prints for a magnitude up
    to 2^53. *)
Definition formatNumber (value : Z) : list ascii :=
  let grouped := reverse (groupFromRight (reverse (decimal (Z.abs_N value)))) in
  if value <? 0 then "-"%char :: grouped else grouped.

(** The characters [encodeURIComponent] leaves alone. *)
Definition unreserved (c : ascii) : bool :=
  let n := N_of_ascii c in
  ((65 <=? n) && (n <=? 90) || (97 <=? n) && (n <=? 122) || (48 <=? n) && (n <=? 57)
   || bool_decide (c ∈ text "-_.!~*'()"))%N.

Definition hexDigit (n : N) : ascii :=
  nth (N.to_nat n) (text "0123456789ABCDEF") "0"%char.

(** [%XX] for one octet. *)
Definition percent (octet : N) : list ascii :=
  ["%"%char; hexDigit (octet / 16)%N; hexDigit (octet mod 16)%N].

(** [encodeURIComponent] of one code unit below 256: a code unit from
    128 on takes two octets of UTF-8.  The labels the script encodes are
    ASCII. *)
Definition encodeUnit (c : ascii) : list ascii :=
  let n := N_of_ascii c in
  if unreserved c then [c]
  else if (n <? 128)%N then percent n
  else percent (192 + n / 64)%N ++ percent (128 + n mod 64)%N.

Definition encodeURIComponent (s : list ascii) : list ascii :=
  c ← s; encodeUnit c.

(** [`${formatNumber(n)} day${n === 1 ? '' : 's'}`] *)
Definition streakLabel (n : nat) : list ascii :=
  formatNumber (Z.of_nat n) ++ text " day" ++ (if decide (n = 1%nat) then [] else text "s").

(** One [<img ... />] line of the template. *)
Definition badge (name label colour alt : list ascii) : list ascii :=
  text "  <img src=" ++ [dquote] ++ text "https://img.shields.io/badge/" ++ name
    ++ text "-" ++ label ++ text "-" ++ colour
    ++ text "?style=for-the-badge&logo=github&labelColor=1c1c1c" ++ [dquote]
    ++ text " alt=" ++ [dquote] ++ alt ++ [dquote] ++ text " />" ++ [newline].

Definition renderStats (stats : StatsResult) : list ascii :=
  let totalLabel := encodeURIComponent (formatNumber (total stats)) in
  let longestLabel := encodeURIComponent (streakLabel (longestStreak stats)) in
  let currentLabel := encodeURIComponent (streakLabel (currentStreak stats)) in
  START_MARKER ++ [newline]
    ++ text "<p align=" ++ [dquote] ++ text "center" ++ [dquote] ++ text ">" ++ [newline]
    ++ badge (text "Total%20Commits") totalLabel (text "2ea44f") (text "Total commits badge")
    ++ badge (text "Longest%20Streak") longestLabel (text "1f6feb") (text "Longest streak badge")
    ++ badge (text "Current%20Streak") currentLabel (text "bf4b8a") (text "Current streak badge")
    ++ text "</p>" ++ [newline]
    ++ END_MARKER.

(** ** The file system and [injectStats] *)

(** What a call can throw: [new Error(message)], or the error of
    [fs.readFileSync] on a path that does not exist. *)
Inductive exn :=
  | Error (message : string)
  | ENOENT (path : string).

(** The error [injectStats] throws; the specification calls its kind
    [ConfigError]. *)
Definition ConfigError : exn :=
  Error "README is missing required GITHUB-STATS markers.".

(** The files, and the calls of [fs.writeFileSync] so far, oldest first. *)
Record world := mkWorld {
  files : gmap string (list ascii);
  writes : list (string * list ascii)
}.

Inductive outcome (A : Type) :=
  | Return (a : A)
  | Throw (e : exn).
Arguments Return {A} _.
Arguments Throw {A} _.

(** A computation on the file system that may throw. *)
Definition FS (A : Type) : Type := world → outcome A * world.

Definition ret {A} (a : A) : FS A := λ w, (Return a, w).
Definition throw {A} (e : exn) : FS A := λ w, (Throw e, w).
Definition bind {A B} (m : FS A) (k : A → FS B) : FS B :=
  λ w, match m w with
       | (Return a, w') => k a w'
       | (Throw e, w') => (Throw e, w')
       end.

Notation "x ←! m ;; k" := (bind m (λ x, k))
  (at level 100, m at next level, right associativity).
Notation "m ;;! k" := (bind m (λ _, k))
  (at level 100, right associativity).

(** [fs.readFileSync(path, 'utf8')]: the content of the file, or the
    error for a file that is not there; other failures of the read are
    not followed. *)
Definition readFileSync (path : string) : FS (list ascii) :=
  λ w, match files w !! path with
       | Some content => (Return content, w)
       | None => (Throw (ENOENT path), w)
       end.

(** [fs.writeFileSync(path, data)], for a write that goes through; a
    failing write is not followed. *)
Definition writeFileSync (path : string) (data : list ascii) : FS unit :=
  λ w, (Return (), mkWorld (<[path := data]> (files w)) (writes w ++ [(path, data)])).

(** [pattern] is at the head of [s]: the rest of [s] behind it. *)
Fixpoint stripPrefix (pattern s : list ascii) : option (list ascii) :=
  match pattern, s with
  | [], _ => Some s
  | _ :: _, [] => None
  | p :: pattern', c :: s' => if decide (p = c) then stripPrefix pattern' s' else None
  end.

(** [s.includes(pattern)] *)
Fixpoint includes (s pattern : list ascii) : bool :=
  match stripPrefix pattern s with
  | Some _ => true
  | None => match s with
            | [] => false
            | _ :: s' => includes s' pattern
            end
  end.

(** [pattern] occurs somewhere in [s]. *)
Definition occursIn (pattern s : list ascii) : Prop :=
  ∃ before after, s = before ++ pattern ++ after.

(** The regular expressions the script builds: a pattern character that
    stands for itself, and the lazy [[\s\S]*?]. *)
Inductive atom :=
  | Char (c : ascii)
  | AnyLazy.

(** The characters with a meaning of their own in a pattern. *)
Definition syntaxCharacter (c : ascii) : bool :=
  bool_decide (c ∈ text "^$\.*+?()[]{}|").

(** [new RegExp(`${START_MARKER}[\\s\\S]*?${END_MARKER}`)]: neither
    marker has a syntax character (see [markers_literal]), so each of its
    characters is a pattern character. *)
Definition spanPattern : list atom :=
  (Char <$> START_MARKER) ++ [AnyLazy] ++ (Char <$> END_MARKER).

(** Backtracking match of a pattern at the head of [s]: the text matched
    and the rest.  The lazy atom first tries the remainder of the pattern
    where it stands and takes one more character only when that fails. *)
Fixpoint matchHere (pattern : list atom) : list ascii → option (list ascii * list ascii) :=
  match pattern with
  | [] => λ s, Some ([], s)
  | Char p :: pattern' => λ s,
      match s with
      | c :: s' =>
          if decide (p = c)
          then '(m, rest) ← matchHere pattern' s'; Some (c :: m, rest)
          else None
      | [] => None
      end
  | AnyLazy :: pattern' =>
      fix skip (s : list ascii) : option (list ascii * list ascii) :=
        match matchHere pattern' s with
        | Some found => Some found
        | None => match s with
                  | [] => None
                  | c :: s' => '(m, rest) ← skip s'; Some (c :: m, rest)
                  end
        end
  end.

(** [regexp.exec(s)] without the global flag: the match at the least
    index that has one, as the text before it, the match and the text
    after it. *)
Fixpoint exec (pattern : list atom) (s : list ascii)
  : option (list ascii * list ascii * list ascii) :=
  match matchHere pattern s with
  | Some (m, rest) => Some ([], m, rest)
  | None => match s with
            | [] => None
            | c :: s' => '(before, m, rest) ← exec pattern s'; Some (c :: before, m, rest)
            end
  end.

(** The replacement text of [String.prototype.replace] for a pattern
    without capture groups: [$$], [$&], [$`] and [$'] are expanded, any
    other [$] stands for itself. *)
Fixpoint getSubstitution (matched before after replacement : list ascii) : list ascii :=
  match replacement with
  | [] => []
  | c :: rest =>
      if decide (c = "$"%char) then
        match rest with
        | d :: rest' =>
            if decide (d = "$"%char) then "$"%char :: getSubstitution matched before after rest'
            else if decide (d = "&"%char) then matched ++ getSubstitution matched before after rest'
            else if decide (d = "`"%char) then before ++ getSubstitution matched before after rest'
            else if decide (d = "'"%char) then after ++ getSubstitution matched before after rest'
            else c :: getSubstitution matched before after rest
        | [] => [c]
        end
      else c :: getSubstitution matched before after rest
  end.

(** [s.replace(regexp, replacement)] with a string replacement and no
    global flag. *)
Definition replace (s : list ascii) (pattern : list atom) (replacement : list ascii) : list ascii :=
  match exec pattern s with
  | Some (before, matched, after) =>
      before ++ getSubstitution matched before after replacement ++ after
  | None => s
  end.

Section Patcher.

(** [path.join(__dirname, '..', 'README.md')], fixed when the script is
    loaded. *)
Variable README_PATH : string.

Definition injectStats (statsBlock : list ascii) : FS unit :=
  content ←! readFileSync README_PATH;;
  if negb (includes content START_MARKER) || negb (includes content END_MARKER)
  then throw ConfigError
  else
    let updated := replace content spanPattern statsBlock in
    writeFileSync README_PATH updated.

End Patcher.

(** ** The API client and the fetching of the calendars *)

Definition LOGIN : string := "KamrulIbnZaman".

(** The [variables] of a request: [{ login }] or [{ login, from, to }]. *)
Record variables := mkVariables {
  login : string;
  from : option string;
  to : option string
}.

(** What [fetch] is called with; the body is kept as the object that
    [JSON.stringify] is applied to. *)
Record request := mkRequest {
  url : string;
  method : string;
  headers : list (string * string);
  query : string;
  vars : variables
}.

(** The part of a response's data the script reads, each level of which
    may be missing: [contributionYears] is [Some] for an array (of
    integers) and [contributionCalendar] for a calendar object. *)
Record collection := mkCollection {
  contributionYears : option (list Z);
  contributionCalendar : option calendar
}.
Record userData := mkUser { contributionsCollection : option collection }.
Record apiData := mkData { user : option userData }.

(** The parsed body of a response: [errors] is [Some] for a truthy
    [body.errors], with what [JSON.stringify] makes of it; [data] is
    [None] for a missing or null [body.data]. *)
Record responseBody := mkBody {
  errors : option string;
  data : option apiData
}.

(** A response: [response.ok], [response.status], [response.statusText],
    and what [response.text()] and [response.json()] settle to. *)
Record response := mkResponse {
  ok : bool;
  status : N;
  statusText : string;
  bodyText : outcome string;
  bodyJson : outcome responseBody
}.

(** A computation that sends requests and may throw; the state is the
    list of the requests sent so far, oldest first. *)
Definition API (A : Type) : Type := list request → outcome A * list request.

Definition apiRet {A} (a : A) : API A := λ sent, (Return a, sent).
Definition apiThrow {A} (e : exn) : API A := λ sent, (Throw e, sent).
Definition apiBind {A B} (m : API A) (k : A → API B) : API B :=
  λ sent, match m sent with
          | (Return a, sent') => k a sent'
          | (Throw e, sent') => (Throw e, sent')
          end.

(** A value or an exception of the runtime, as a computation. *)
Definition settle {A} (o : outcome A) : API A := λ sent, (o, sent).

Notation "x ←? m ;; k" := (apiBind m (λ x, k))
  (at level 100, m at next level, right associativity).

Definition yearsQuery : string := "
    query ($login: String!) {
      user(login: $login) {
        contributionsCollection {
          contributionYears
        }
      }
    }
  ".

Definition calendarQuery : string := "
    query ($login: String!, $from: DateTime!, $to: DateTime!) {
      user(login: $login) {
        contributionsCollection(from: $from, to: $to) {
          contributionCalendar {
            weeks {
              contributionDays {
                date
                contributionCount
              }
            }
          }
        }
      }
    }
  ".

(** [[...years].sort((a, b) => a - b)]: the years in ascending order. *)
Definition sortYears (years : list Z) : list Z := merge_sort Z.le years.

Module Client.
Section Client.

(** The network: what [fetch] settles to for a request, given the
    requests sent before it. *)
Variable server : list request → request → outcome response.

(** The runtime: [StringToNumber], the time value of [new Date(s)], the
    time value [today] of [new Date()], [getUTCFullYear] and
    [toISOString] of a time value, and
    [new Date(Date.UTC(...)).toISOString()], which throws for a date out
    of range. *)
Variable StringToNumber : string → number.
Variable parseDate : string → option Z.
Variable today : Z.
Variable getUTCFullYear : Z → Z.
Variable toISOString : Z → string.
Variable isoOfUTC : Z → Z → Z → Z → Z → Z → outcome string.

(** [fetch(url, options)] *)
Definition fetch (req : request) : API response :=
  λ sent, (server sent req, sent ++ [req]).

Definition graphqlRequest (token : string) (query : string) (variables : variables)
  : API (option apiData) :=
  response ←? fetch (mkRequest "https://api.github.com/graphql" "POST"
                       [("Authorization", String.append "Bearer " token);
                        ("Content-Type", "application/json");
                        ("User-Agent", "github-stats-updater")]
                       query variables);;
  if negb (ok response) then
    text ←? settle (bodyText response);;
    apiThrow (Error (String.concat ""
      ["GitHub API request failed: ";
       String.string_of_list_ascii (decimal (status response)); " ";
       statusText response; " - "; text]))
  else
    body ←? settle (bodyJson response);;
    match errors body with
    | Some shown => apiThrow (Error (String.append "GitHub API returned errors: " shown))
    | None => apiRet (data body)
    end.

Definition fetchContributionYears (token : string) : API (list Z) :=
  data ←? graphqlRequest token yearsQuery (mkVariables LOGIN None None);;
  let years := d ← data; u ← user d; c ← contributionsCollection u; contributionYears c in
  apiRet (match years with Some years => years | None => [] end).

Definition fetchContributionCalendar (token from to : string) : API calendar :=
  data ←? graphqlRequest token calendarQuery (mkVariables LOGIN (Some from) (Some to));;
  let calendar := d ← data; u ← user d; c ← contributionsCollection u; contributionCalendar c in
  match calendar with
  | None => apiThrow (Error "Contribution calendar not found in the API response.")
  | Some calendar => apiRet calendar
  end.

(** The loop [for (const year of sortedYears)], with the [days] pushed
    so far. *)
Fixpoint fetchYears (token : string) (sortedYears : list Z) (days : list (Day number))
  : API (list (Day number)) :=
  match sortedYears with
  | [] => apiRet days
  | year :: rest =>
      from ←? settle (isoOfUTC year 0 1 0 0 0);;
      to ←? (if decide (year = getUTCFullYear today)
             then apiRet (toISOString today)
             else settle (isoOfUTC year 11 31 23 59 59));;
      calendar ←? fetchContributionCalendar token from to;;
      fetchYears token rest (days ++ flattenCalendar StringToNumber calendar)
  end.

Definition fetchAllContributionDays (token : string) : API (list (Day number)) :=
  years ←? fetchContributionYears token;;
  if decide (length years = 0%nat)
  then apiThrow (Error "No contribution years found for the user.")
  else
    let sortedYears := sortYears years in
    days ←? fetchYears token sortedYears [];;
    apiRet (sortDays parseDate
              (filter (λ day, notAfterToday parseDate today day = true) days)).

End Client.
End Client.

(** ** Notions used in the further properties *)

(** The lines of the rendered block between its two markers. *)
Definition blockLines (stats : StatsResult) : list ascii :=
  let totalLabel := encodeURIComponent (formatNumber (total stats)) in
  let longestLabel := encodeURIComponent (streakLabel (longestStreak stats)) in
  let currentLabel := encodeURIComponent (streakLabel (currentStreak stats)) in
  [newline]
    ++ text "<p align=" ++ [dquote] ++ text "center" ++ [dquote] ++ text ">" ++ [newline]
    ++ badge (text "Total%20Commits") totalLabel (text "2ea44f") (text "Total commits badge")
    ++ badge (text "Longest%20Streak") longestLabel (text "1f6feb") (text "Longest streak badge")
    ++ badge (text "Current%20Streak") currentLabel (text "bf4b8a") (text "Current streak badge")
    ++ text "</p>" ++ [newline].

(** Every [<] of a text is followed by a character other than [!]: no
    comment opens in it. *)
Fixpoint commentFree (s : list ascii) : bool :=
  match s with
  | [] => true
  | c :: rest =>
      (if decide (c = "<"%char)
       then match rest with
            | d :: _ => negb (bool_decide (d = "!"%char))
            | [] => false
            end
       else true) && commentFree rest
  end.

(** The request [graphqlRequest] sends for a token, a query and its
    variables. *)
Definition apiRequest (token query : string) (variables : variables) : request :=
  mkRequest "https://api.github.com/graphql" "POST"
    [("Authorization", String.append "Bearer " token);
     ("Content-Type", "application/json");
     ("User-Agent", "github-stats-updater")]
    query variables.

(** [data?.user?.contributionsCollection?.contributionYears], when it is
    an array, and [...?.contributionCalendar]. *)
Definition yearsOf (data : option apiData) : option (list Z) :=
  d ← data; u ← user d; c ← contributionsCollection u; contributionYears c.
Definition calendarOf (data : option apiData) : option calendar :=
  d ← data; u ← user d; c ← contributionsCollection u; contributionCalendar c.

(** A response that [graphqlRequest] returns the data of. *)
Definition delivers (resp : response) (payload : option apiData) : Prop :=
  ok resp = true ∧ ∃ body, bodyJson resp = Return body ∧ errors body = None ∧
                           data body = payload.

(** The calendar request for a year: from the first instant of the year
    to its last second, or to the current instant for the current year. *)
Definition yearRequest (today : Z) (getUTCFullYear : Z → Z) (toISOString : Z → string)
    (isoOfUTC : Z → Z → Z → Z → Z → Z → outcome string)
    (token : string) (year : Z) (req : request) : Prop :=
  ∃ start stop,
    req = apiRequest token calendarQuery (mkVariables LOGIN (Some start) (Some stop)) ∧
    isoOfUTC year 0 1 0 0 0 = Return start ∧
    if decide (year = getUTCFullYear today)
    then stop = toISOString today
    else isoOfUTC year 11 31 23 59 59 = Return stop.

(** The calendars are what the server delivers for the requests, each
    request sent after the ones before it. *)
Fixpoint served (server : list request → request → outcome response)
    (sent : list request) (requests : list request) (calendars : list calendar) : Prop :=
  match requests, calendars with
  | [], [] => True
  | req :: requests', cal :: calendars' =>
      (∃ resp payload, server sent req = Return resp ∧ delivers resp payload ∧
                       calendarOf payload = Some cal) ∧
      served server (sent ++ [req]) requests' calendars'
  | _, _ => False
  end.

(** The day [a] is not later than the day [b], both with a valid date. *)
Definition notLater (parseDate : string → option Z) (a b : Day number) : Prop :=
  ∃ ta tb, parseDate (date a) = Some ta ∧ parseDate (date b) = Some tb ∧ ta ≤ tb.

(** * Properties *)

(** ** The statistics *)

Section StatsFacts.

Implicit Types (day : ContributionDay) (days : list ContributionDay).

Lemma scanStep_active st day :
  active day →
  scanStep st day =
    mkScan (s_total st + count day)
           (Nat.max (s_longest st) (S (s_rolling st)))
           (S (s_rolling st)).
Proof.
  unfold active, scanStep. intros Hpos.
  destruct (Z.ltb_spec 0 (count day)); [|lia].
  replace (s_rolling st + 1)%nat with (S (s_rolling st)) by lia.
  destruct (Nat.ltb_spec (s_longest st) (S (s_rolling st))); f_equal; lia.
Qed.

Lemma scanStep_idle st day :
  ¬ active day →
  scanStep st day = mkScan (s_total st + count day) (s_longest st) 0.
Proof.
  unfold active, scanStep. intros Hidle.
  destruct (Z.ltb_spec 0 (count day)); [lia|done].
Qed.

Lemma scan_snoc days day : scan (days ++ [day]) = scanStep (scan days) day.
Proof. unfold scan. by rewrite foldl_app. Qed.

(** *** The total *)

Lemma foldl_scan_total days :
  ∀ st, s_total (foldl scanStep st days) = s_total st + sumCounts days.
Proof.
  induction days as [|day days IH]; intros st; simpl; [lia|].
  rewrite IH. destruct (decide (active day)) as [Hd|Hd].
  - rewrite scanStep_active by done. simpl. lia.
  - rewrite scanStep_idle by done. simpl. lia.
Qed.

Lemma sumCounts_Permutation days days' :
  days ≡ₚ days' → sumCounts days = sumCounts days'.
Proof. induction 1; simpl; lia. Qed.

(** *** Runs at the head and at the end of a sequence *)

Lemma runLength_le_length days : (runLength days ≤ length days)%nat.
Proof. induction days as [|day days IH]; simpl; [lia|]. case_decide; lia. Qed.

Lemma runLength_take days : Forall active (take (runLength days) days).
Proof.
  induction days as [|day days IH]; simpl; [constructor|].
  case_decide; simpl; [by constructor | constructor].
Qed.

Lemma runLength_drop days :
  drop (runLength days) days = [] ∨
  ∃ day rest, drop (runLength days) days = day :: rest ∧ ¬ active day.
Proof.
  induction days as [|day days IH]; simpl; [by left|].
  case_decide; simpl; [done|]. right. by exists day, days.
Qed.

Lemma runLength_app_active run days :
  Forall active run → runLength (run ++ days) = (length run + runLength days)%nat.
Proof.
  induction 1 as [|day run Hd _ IH]; simpl; [done|].
  rewrite decide_True by done. by rewrite IH.
Qed.

Lemma trailingRun_snoc days day :
  trailingRun (days ++ [day]) =
    if decide (active day) then S (trailingRun days) else 0%nat.
Proof. unfold trailingRun. by rewrite reverse_snoc. Qed.

(** The second loop counts the run at the end of the part it has not
    yet looked at. *)
Lemma trailing_take days n :
  (n ≤ length days)%nat →
  ∀ cur, trailing days n cur = (cur + trailingRun (take n days))%nat.
Proof.
  induction n as [|i IH]; intros Hn cur; simpl.
  - rewrite take_0. unfold trailingRun. simpl. lia.
  - destruct (lookup_lt_is_Some_2 days i) as [day Hday]; [lia|].
    rewrite Hday, (take_S_r _ _ _ Hday), trailingRun_snoc.
    destruct (Z.ltb_spec 0 (count day)); case_decide; unfold active in *; try lia.
    rewrite IH by lia. lia.
Qed.

Lemma currentStreak_trailingRun days :
  currentStreak (computeStats days) = trailingRun days.
Proof.
  unfold computeStats. simpl. rewrite trailing_take by done.
  by rewrite firstn_all.
Qed.

(** The rolling counter of the first loop is that same run. *)
Lemma scan_rolling days : s_rolling (scan days) = trailingRun days.
Proof.
  induction days as [|day days IH] using rev_ind; [done|].
  rewrite scan_snoc, trailingRun_snoc. case_decide.
  - rewrite scanStep_active by done. simpl. by rewrite IH.
  - by rewrite scanStep_idle.
Qed.

Lemma scan_rolling_le_longest days :
  (s_rolling (scan days) ≤ s_longest (scan days))%nat.
Proof.
  induction days as [|day days IH] using rev_ind; [done|].
  rewrite scan_snoc. destruct (decide (active day)).
  - rewrite scanStep_active by done. simpl. lia.
  - rewrite scanStep_idle by done. simpl. lia.
Qed.

Lemma trailing_le_longest days :
  (currentStreak (computeStats days) ≤ longestStreak (computeStats days))%nat.
Proof.
  rewrite currentStreak_trailingRun, <- scan_rolling.
  apply scan_rolling_le_longest.
Qed.

(** *** The longest run *)

Lemma runLength_le_longestRun days : (runLength days ≤ longestRun days)%nat.
Proof. destruct days; simpl; lia. Qed.

(** The first loop from any state: the longest streak it ends with is
    the largest of the one it started with, the run it was in as
    continued by the head of the sequence, and the longest run of the
    sequence. *)
Lemma foldl_scan_longest days :
  ∀ st,
    s_longest (foldl scanStep st days) =
      Nat.max (s_longest st)
        (Nat.max (if decide (runLength days = 0%nat) then 0%nat
                  else (s_rolling st + runLength days)%nat)
                 (longestRun days)).
Proof.
  induction days as [|day days IH]; intros st.
  - simpl. lia.
  - change (foldl scanStep st (day :: days))
      with (foldl scanStep (scanStep st day) days).
    rewrite IH. pose proof (runLength_le_longestRun days) as Hle.
    change (longestRun (day :: days))
      with (Nat.max (runLength (day :: days)) (longestRun days)).
    simpl runLength. destruct (decide (active day)) as [Hd|Hd].
    + rewrite scanStep_active by done. simpl.
      repeat case_decide; lia.
    + rewrite scanStep_idle by done. simpl.
      repeat case_decide; lia.
Qed.

Lemma longestStreak_longestRun days :
  longestStreak (computeStats days) = longestRun days.
Proof.
  unfold computeStats, scan. simpl. rewrite foldl_scan_longest. simpl.
  pose proof (runLength_le_longestRun days). case_decide; lia.
Qed.

(** Some run of active days has the length [longestRun] gives ... *)
Lemma longestRun_attained days :
  ∃ before run after,
    days = before ++ run ++ after ∧ Forall active run ∧
    length run = longestRun days.
Proof.
  induction days as [|day days (before & run & after & Heq & Hrun & Hlen)].
  - by exists [], [], [].
  - change (longestRun (day :: days))
      with (Nat.max (runLength (day :: days)) (longestRun days)).
    destruct (Nat.max_spec (runLength (day :: days)) (longestRun days))
      as [[_ ->]|[_ ->]].
    + exists (day :: before), run, after. by rewrite Heq at 1.
    + exists [], (take (runLength (day :: days)) (day :: days)),
        (drop (runLength (day :: days)) (day :: days)).
      split; [by rewrite app_nil_l, take_drop|].
      split; [apply runLength_take|].
      rewrite length_take. pose proof (runLength_le_length (day :: days)). lia.
Qed.

(** ... and no run of active days is longer. *)
Lemma longestRun_bound before run after :
  Forall active run →
  (length run ≤ longestRun (before ++ run ++ after))%nat.
Proof.
  intros Hrun. induction before as [|day before IH].
  - rewrite app_nil_l.
    etrans; [|apply runLength_le_longestRun].
    rewrite runLength_app_active by done. lia.
  - change (longestRun ((day :: before) ++ run ++ after))
      with (Nat.max (runLength ((day :: before) ++ run ++ after))
                    (longestRun (before ++ run ++ after))).
    lia.
Qed.

(** The days behind the last idle day, and that day. *)
Lemma trailingRun_split days :
  ∃ before run,
    days = before ++ run ∧ Forall active run ∧
    length run = trailingRun days ∧
    (before = [] ∨ ∃ before' day, before = before' ++ [day] ∧ ¬ active day).
Proof.
  unfold trailingRun. set (r := reverse days).
  exists (reverse (drop (runLength r) r)), (reverse (take (runLength r) r)).
  split; [|split; [|split]].
  - rewrite <- reverse_app, take_drop. unfold r. by rewrite reverse_involutive.
  - apply Forall_reverse, runLength_take.
  - rewrite length_reverse, length_take. pose proof (runLength_le_length r). lia.
  - destruct (runLength_drop r) as [->|(day & rest & -> & Hday)]; [by left|].
    right. exists (reverse rest), day. by rewrite reverse_cons.
Qed.

End StatsFacts.

(** C8.  For the empty sequence of days [computeStats] returns a total of
    0, a longest streak of 0 and a current streak of 0. *)
Theorem computeStats_empty :
  computeStats [] = mkStats 0 0 0.
Proof. reflexivity. Qed.

Lemma roundToNumber_exact (z : Z) :
  Z.abs z ≤ 2 ^ 53 → roundToNumber z = Finite z.
Proof.
  intros Hz. unfold roundToNumber.
  destruct (Z.ltb_spec (Z.abs z) (2 ^ 53)) as [|Hge]; [done|].
  assert (z = 2 ^ 53 ∨ z = - 2 ^ 53) as [-> | ->] by lia; by vm_compute.
Qed.

(** As long as the magnitudes stay within 2^53, Numbers add up as the
    integers they are. *)
Lemma foldl_addCount_exact (days : list ContributionDay) :
  ∀ t, Z.abs t + magnitude days ≤ 2 ^ 53 →
    foldl (λ acc day, addCount acc (count day)) (Finite t) days =
      Finite (t + sumCounts days).
Proof.
  induction days as [|day days IH]; intros t Hsafe; simpl in *.
  { f_equal. lia. }
  assert (0 ≤ magnitude days) as Hpos.
  { clear. induction days as [|d days IH]; simpl; lia. }
  rewrite roundToNumber_exact by lia. rewrite IH by lia. f_equal. lia.
Qed.

Lemma magnitude_Permutation (days days' : list ContributionDay) :
  days ≡ₚ days' → magnitude days = magnitude days'.
Proof. induction 1; simpl; lia. Qed.

(** C3, as the claim has it, fails: the counts 2^53, 1, 1 in this order
    give the total 2^53, which is not their sum, and in the order 1, 1,
    2^53 they give another total. *)
Lemma total_rounds_beyond_2_53 :
  let days : list ContributionDay :=
    [mkDay "2024-01-01" (2 ^ 53); mkDay "2024-01-02" 1; mkDay "2024-01-03" 1] in
  let days' : list ContributionDay :=
    [mkDay "2024-01-02" 1; mkDay "2024-01-03" 1; mkDay "2024-01-01" (2 ^ 53)] in
  days ≡ₚ days' ∧
  sumCounts days = 2 ^ 53 + 2 ∧
  totalOf days = Finite (2 ^ 53) ∧
  totalOf days' = Finite (2 ^ 53 + 2) ∧
  totalOf days ≠ Finite (sumCounts days) ∧
  totalOf days' ≠ totalOf days.
Proof.
  intros days days'. split.
  { unfold days, days'.
    apply Permutation_cons_app with (l1 := [mkDay "2024-01-02" 1; mkDay "2024-01-03" 1]).
    by rewrite app_nil_r. }
  by vm_compute.
Qed.

(** C3, as the code has it.  For every sequence of days whose counts add
    up, in magnitude, to no more than 2^53, the total [computeStats]
    returns is the sum of the counts of all entries, and it is the same
    for every rearrangement of the sequence. *)
Theorem total_is_sum_within_2_53 (days : list ContributionDay) :
  magnitude days ≤ 2 ^ 53 →
  totalOf days = Finite (sumCounts days) ∧
  total (computeStats days) = sumCounts days ∧
  ∀ days', days ≡ₚ days' →
    totalOf days' = totalOf days ∧
    total (computeStats days') = total (computeStats days).
Proof.
  assert (∀ l : list ContributionDay, magnitude l ≤ 2 ^ 53 →
            totalOf l = Finite (sumCounts l)) as Hexact.
  { intros l Hl. unfold totalOf. by rewrite foldl_addCount_exact by (simpl; lia). }
  assert (∀ l, total (computeStats l) = sumCounts l) as Hsum.
  { intros l. unfold computeStats, scan. simpl. by rewrite foldl_scan_total. }
  intros Hsafe. split; [by apply Hexact|]. split; [apply Hsum|].
  intros days' Hperm. rewrite !Hsum, !Hexact.
  - by rewrite (sumCounts_Permutation _ _ Hperm).
  - done.
  - by rewrite <- (magnitude_Permutation _ _ Hperm).
Qed.

Lemma total_is_sum_within_2_53_witness :
  let days := [mkDay "2024-01-01" 5; mkDay "2024-01-02" 0; mkDay "2024-01-03" 3] in
  let days' := [mkDay "2024-01-03" 3; mkDay "2024-01-01" 5; mkDay "2024-01-02" 0] in
  days ≡ₚ days' ∧ magnitude days ≤ 2 ^ 53 ∧
  totalOf days = Finite 8 ∧ totalOf days' = Finite 8.
Proof.
  intros days days'.
  assert (days ≡ₚ days') as Hperm.
  { unfold days, days'. apply Permutation_cons_app with (l1 := [mkDay "2024-01-03" 3]).
    apply Permutation_cons_app with (l1 := [mkDay "2024-01-03" 3]). done. }
  assert (magnitude days ≤ 2 ^ 53) as Hsafe by (vm_compute; discriminate).
  split; [exact Hperm|]. split; [exact Hsafe|].
  destruct (total_is_sum_within_2_53 days Hsafe) as (Hsum & _ & Hany).
  split; [exact Hsum|]. destruct (Hany days' Hperm) as [Hsame _].
  rewrite Hsame. exact Hsum.
Defined.

(** C1.  The longest streak [computeStats] returns is the length of the
    longest run of consecutive entries, in the order of the sequence, that
    all have a count above 0: some such run has that length and none is
    longer.  The running streak goes up by one on an entry with a count
    above 0 and is back at 0 after an entry whose count is 0. *)
Theorem longestStreak_is_longest_run (days : list ContributionDay) :
  let longest := longestStreak (computeStats days) in
  longest = longestRun days ∧
  (∃ before run after,
      days = before ++ run ++ after ∧ Forall active run ∧ length run = longest) ∧
  (∀ before run after,
      days = before ++ run ++ after → Forall active run →
      (length run ≤ longest)%nat) ∧
  (∀ before day after,
      days = before ++ day :: after →
      (0 < count day →
       s_rolling (scan (before ++ [day])) = S (s_rolling (scan before))) ∧
      (count day = 0 → s_rolling (scan (before ++ [day])) = 0%nat)).
Proof.
  intros longest. unfold longest. rewrite longestStreak_longestRun.
  split; [done|]. split; [apply longestRun_attained|]. split.
  - intros before run after -> Hrun. by apply longestRun_bound.
  - intros before day after _. rewrite scan_snoc. split; intros Hday.
    + by rewrite scanStep_active.
    + rewrite scanStep_idle; [done|]. unfold active. lia.
Qed.

Lemma longestStreak_is_longest_run_witness :
  let d1 := mkDay "2024-03-01" 5 in
  let d2 := mkDay "2024-03-02" 0 in
  let d3 := mkDay "2024-03-03" 3 in
  let d4 := mkDay "2024-03-04" 2 in
  longestStreak (computeStats [d1; d2; d3; d4]) = 2%nat ∧
  (length [d3; d4] ≤ longestStreak (computeStats [d1; d2; d3; d4]))%nat ∧
  s_rolling (scan ([d1; d2] ++ [d3])) = S (s_rolling (scan [d1; d2])) ∧
  s_rolling (scan ([d1] ++ [d2])) = 0%nat.
Proof.
  intros d1 d2 d3 d4.
  destruct (longestStreak_is_longest_run [d1; d2; d3; d4])
    as (Hlongest & _ & Hbound & Hrolling).
  split; [exact Hlongest|]. split.
  - apply (Hbound [d1; d2] [d3; d4] []); [reflexivity|].
    repeat constructor; unfold active; simpl; lia.
  - split.
    + apply (Hrolling [d1; d2] d3 [d4]); [reflexivity | simpl; lia].
    + apply (Hrolling [d1] d2 [d3; d4]); reflexivity.
Defined.

(** C2.  The current streak [computeStats] returns is the number of
    entries at the end of the sequence with a count above 0: going back
    from the last entry, the count stops at the first entry whose count is
    not above 0 (which is a count of 0 when no count is negative), or when
    no entry is left. *)
Theorem currentStreak_counts_trailing_days (days : list ContributionDay) :
  let current := currentStreak (computeStats days) in
  current = trailingRun days ∧
  ∃ before run,
    days = before ++ run ∧ length run = current ∧ Forall active run ∧
    (before = [] ∨
     ∃ before' day, before = before' ++ [day] ∧ count day ≤ 0 ∧
       (Forall (λ d, 0 ≤ count d) days → count day = 0)).
Proof.
  intros current. unfold current. rewrite currentStreak_trailingRun.
  split; [done|].
  destruct (trailingRun_split days) as (before & run & Heq & Hrun & Hlen & Hstop).
  exists before, run. repeat split; try done.
  destruct Hstop as [->|(before' & day & -> & Hday)]; [by left|].
  right. exists before', day. unfold active in Hday.
  repeat split; [lia|]. intros Hall.
  assert (0 ≤ count day); [|lia].
  rewrite Forall_forall in Hall. apply Hall. rewrite Heq. set_solver.
Qed.

Lemma currentStreak_counts_trailing_days_witness :
  let days := [mkDay "2024-03-01" 5; mkDay "2024-03-02" 0;
               mkDay "2024-03-03" 3; mkDay "2024-03-04" 2] in
  Forall (λ d : ContributionDay, 0 ≤ count d) days ∧
  currentStreak (computeStats days) = 2%nat ∧
  ∃ before run,
    days = before ++ run ∧ length run = 2%nat ∧ Forall active run ∧
    (before = [] ∨ ∃ before' day, before = before' ++ [day] ∧ count day = 0).
Proof.
  intros days.
  assert (Forall (λ d : ContributionDay, 0 ≤ count d) days) as Hall.
  { repeat constructor; simpl; lia. }
  split; [exact Hall|].
  destruct (currentStreak_counts_trailing_days days)
    as (Hcur & before & run & Heq & Hlen & Hrun & Hstop).
  split; [exact Hcur|]. exists before, run.
  split; [exact Heq|]. split; [exact Hlen|]. split; [exact Hrun|].
  destruct Hstop as [Hnil|(before' & day & Hb & _ & Hzero)]; [by left|].
  right. exists before', day. split; [exact Hb | exact (Hzero Hall)].
Defined.

(** C4.  No sequence of days makes [computeStats] return a longest streak
    below the current streak ... *)
Lemma longest_below_current_impossible :
  ¬ ∃ days : list ContributionDay,
      (longestStreak (computeStats days) < currentStreak (computeStats days))%nat.
Proof.
  intros [days Hlt]. pose proof (trailing_le_longest days). lia.
Qed.

(** C4, as the code has it.  For every sequence of days the longest
    streak is at least the current streak: the current streak is the run
    the first loop is in when it ends, and the longest streak is never
    below the running one. *)
Theorem currentStreak_le_longestStreak (days : list ContributionDay) :
  (currentStreak (computeStats days) ≤ longestStreak (computeStats days))%nat ∧
  currentStreak (computeStats days) = s_rolling (scan days).
Proof.
  split; [apply trailing_le_longest|].
  by rewrite currentStreak_trailingRun, scan_rolling.
Qed.

(** ** The aggregated days *)

Section AggregatorFacts.

Variable StringToNumber : string → number.
Variable parseDate : string → option Z.
Variable today : Z.

Local Abbreviation Number := (Number StringToNumber).
Local Abbreviation toDay := (toDay StringToNumber).
Local Abbreviation collectDays := (collectDays StringToNumber).
Local Abbreviation fetchAllContributionDays :=
  (fetchAllContributionDays StringToNumber parseDate today).

Lemma flattenCalendar_raw cal :
  flattenCalendar StringToNumber cal = toDay <$> (w ← weeks cal; contributionDays w).
Proof.
  unfold flattenCalendar. induction (weeks cal) as [|w ws IH]; [done|].
  by rewrite !bind_cons, fmap_app, IH.
Qed.

Lemma foldl_push calendars :
  ∀ days,
    foldl (λ days cal, days ++ flattenCalendar StringToNumber cal) days calendars =
      days ++ (toDay <$> rawDays calendars).
Proof.
  unfold rawDays.
  induction calendars as [|cal calendars IH]; intros days.
  - simpl. by rewrite app_nil_r.
  - rewrite bind_cons, fmap_app. cbn [foldl].
    rewrite IH, flattenCalendar_raw. by rewrite app_assoc.
Qed.

(** The loop over the years flattens the calendars in order. *)
Lemma collectDays_raw calendars :
  collectDays calendars = toDay <$> rawDays calendars.
Proof. unfold collectDays. by rewrite foldl_push. Qed.

(** Sorting only reorders. *)
Lemma insertDay_Permutation x sorted :
  insertDay parseDate x sorted ≡ₚ x :: sorted.
Proof.
  induction sorted as [|y rest IH]; simpl; [done|].
  destruct (comesAfter parseDate x y); [|done].
  by rewrite IH, Permutation_swap.
Qed.

Lemma sortDays_Permutation days : sortDays parseDate days ≡ₚ days.
Proof.
  induction days as [|x days IH]; simpl; [done|].
  by rewrite insertDay_Permutation, IH.
Qed.

(** Every aggregated day is the image of an entry of a response. *)
Lemma fetchAllContributionDays_from_raw calendars day :
  day ∈ fetchAllContributionDays calendars →
  ∃ raw, raw ∈ rawDays calendars ∧ day = toDay raw.
Proof.
  unfold fetchAllContributionDays.
  rewrite sortDays_Permutation, list_elem_of_filter, collectDays_raw.
  intros [_ (raw & -> & Hraw)%list_elem_of_fmap]. eauto.
Qed.

(** [Number(c) || 0], case by case. *)
Lemma toDay_count raw :
  count (toDay raw) =
    match Number (contributionCount raw) with
    | NaN => Fin 0
    | Fin q => if Qeq_bool q 0 then Fin 0 else Fin q
    | Infinity negative => Infinity negative
    end.
Proof.
  unfold toDay, orElse. simpl.
  destruct (Number (contributionCount raw)) as [|q|negative]; simpl; [done| |done].
  by destruct (Qeq_bool q 0).
Qed.

Lemma toDay_nonNegInteger raw :
  Number (contributionCount raw) = NaN ∨
    nonNegInteger (Number (contributionCount raw)) →
  nonNegInteger (count (toDay raw)).
Proof.
  rewrite toDay_count.
  destruct (Number (contributionCount raw)) as [|q|negative]; simpl.
  - intros _. exists 0. split; [lia | reflexivity].
  - intros [?|Hq]; [done|]. destruct (Qeq_bool q 0); simpl; [|done].
    exists 0. split; [lia | reflexivity].
  - by intros [?|?].
Qed.

End AggregatorFacts.

(** C5, as the claim has it, fails: a response whose [contributionCount]
    is the number -1 gives an aggregated day with the count -1. *)
Lemma negative_count_is_kept :
  let parseDate := λ s : string, if decide (s = "1970-01-01") then Some 0 else None in
  let response := mkCalendar [mkWeek [mkRaw "1970-01-01" (VNumber (Fin (-1)))]] in
  fetchAllContributionDays (λ _, NaN) parseDate 0 [response]
    = [mkDay "1970-01-01" (Fin (-1))] ∧
  ¬ Forall (λ day, nonNegInteger (count day))
      (fetchAllContributionDays (λ _, NaN) parseDate 0 [response]).
Proof.
  intros parseDate response. split; [reflexivity|].
  intros Hall. apply Forall_inv in Hall. destruct Hall as (k & Hk & Heq).
  unfold Qeq in Heq. simpl in Heq. lia.
Qed.

(** C5, as the code has it.  The aggregator flattens the weeks of the
    responses into [{date, count}] pairs, one for each entry that is kept,
    with [count] the value of [Number(contributionCount) || 0]: a missing
    [contributionCount], and any one whose conversion is not a number, is
    coerced to 0, and so is a conversion that is zero; no count is
    not-a-number; every other number, finite or infinite, negative or
    fractional, is kept as it is, so that a conversion that is a
    non-negative integer gives a non-negative integer.  So every
    aggregated count is a non-negative integer
    when every [contributionCount] of the responses converts to a
    non-negative integer or to not-a-number. *)
Theorem aggregated_counts
    (StringToNumber : string → number) (parseDate : string → option Z) (today : Z)
    (calendars : list calendar) :
  let Number := Number StringToNumber in
  let toDay := toDay StringToNumber in
  let days := fetchAllContributionDays StringToNumber parseDate today calendars in
  collectDays StringToNumber calendars = toDay <$> rawDays calendars ∧
  days ≡ₚ filter (λ day, notAfterToday parseDate today day = true)
            (toDay <$> rawDays calendars) ∧
  (∀ raw,
      date (toDay raw) = rawDate raw ∧
      (contributionCount raw = VUndefined → count (toDay raw) = Fin 0) ∧
      (Number (contributionCount raw) = NaN → count (toDay raw) = Fin 0) ∧
      count (toDay raw) ≠ NaN ∧
      (count (toDay raw) = Number (contributionCount raw) ∨ count (toDay raw) = Fin 0) ∧
      (∀ q, Number (contributionCount raw) = Fin q → (q == 0)%Q →
         count (toDay raw) = Fin 0) ∧
      (∀ q, Number (contributionCount raw) = Fin q → ¬ (q == 0)%Q →
         count (toDay raw) = Fin q) ∧
      (∀ negative, Number (contributionCount raw) = Infinity negative →
         count (toDay raw) = Infinity negative)) ∧
  (Forall (λ raw, Number (contributionCount raw) = NaN ∨
                  nonNegInteger (Number (contributionCount raw)))
          (rawDays calendars) →
   Forall (λ day, nonNegInteger (count day)) days).
Proof.
  cbv zeta. split; [apply collectDays_raw|]. split.
  { unfold fetchAllContributionDays.
    by rewrite sortDays_Permutation, collectDays_raw. }
  split.
  - intros raw. split; [done|]. rewrite toDay_count.
    split; [by intros ->|]. split; [by intros ->|].
    destruct (Number StringToNumber (contributionCount raw)) as [|q|negative].
    + split_and!; [done | by right | done..].
    + destruct (Qeq_bool q 0) eqn:Hzero.
      * apply Qeq_bool_iff in Hzero. split_and!; [done | by right | done | | done].
        intros q' [= <-] Hq'. done.
      * apply Qeq_bool_neq in Hzero. split_and!; [done | by left | | | done].
        -- intros q' [= <-] Hq'. done.
        -- by intros q' [= <-] _.
    + split_and!; [done | by left | done | done |]. by intros negative' [= <-].
  - intros Hraw. apply Forall_forall. intros day Hday.
    apply fetchAllContributionDays_from_raw in Hday as (raw & Hin & ->).
    apply toDay_nonNegInteger. rewrite Forall_forall in Hraw. by apply Hraw.
Qed.

Lemma aggregated_counts_witness :
  let parseDate := λ s : string,
    if decide (s = "1970-01-01") then Some 0
    else if decide (s = "1970-01-02") then Some 86400000 else None in
  let response :=
    mkCalendar [mkWeek [mkRaw "1970-01-02" (VNumber (Fin 3));
                        mkRaw "1970-01-01" VUndefined]] in
  Forall (λ day, nonNegInteger (count day))
    (fetchAllContributionDays (λ _, NaN) parseDate 86400000 [response]) ∧
  fetchAllContributionDays (λ _, NaN) parseDate 86400000 [response]
    = [mkDay "1970-01-01" (Fin 0); mkDay "1970-01-02" (Fin 3)].
Proof.
  intros parseDate response. split; [|reflexivity].
  pose proof (aggregated_counts (λ _, NaN) parseDate 86400000 [response]) as Hagg.
  cbv zeta in Hagg. destruct Hagg as (_ & _ & _ & Hall). apply Hall.
  constructor; [|constructor; [|constructor]].
  - right. exists 3. split; [lia | reflexivity].
  - left. reflexivity.
Defined.

(** ** Patching the README *)

Section MatchingFacts.

Implicit Types (s pattern lit before after mid : list ascii).

(** *** Literal prefixes and [includes] *)

Lemma stripPrefix_Some pattern s rest :
  stripPrefix pattern s = Some rest ↔ s = pattern ++ rest.
Proof.
  revert s. induction pattern as [|p pattern IH]; intros s; simpl.
  - split; [by intros [= ->] | by intros ->].
  - destruct s as [|c s]; [done|]. case_decide as Hpc.
    + subst c. rewrite IH. split; [by intros -> | by intros [= ->]].
    + split; [done | intros [= ? _]; done].
Qed.

Lemma stripPrefix_app pattern rest : stripPrefix pattern (pattern ++ rest) = Some rest.
Proof. by apply stripPrefix_Some. Qed.

Lemma includes_occursIn s pattern : includes s pattern = true ↔ occursIn pattern s.
Proof.
  unfold occursIn. induction s as [|c s IH]; simpl.
  - destruct (stripPrefix pattern []) as [rest|] eqn:Hhead.
    + apply stripPrefix_Some in Hhead. split; [|done]. intros _. by exists [], rest.
    + split; [done|]. intros (before & after & Heq).
      destruct before; [|done]. simpl in Heq.
      apply stripPrefix_Some in Heq. congruence.
  - destruct (stripPrefix pattern (c :: s)) as [rest|] eqn:Hhead.
    + apply stripPrefix_Some in Hhead. split; [|done]. intros _. by exists [], rest.
    + rewrite IH. split.
      * intros (before & after & ->). by exists (c :: before), after.
      * intros (before & after & Heq). destruct before as [|c' before].
        { simpl in Heq.        apply stripPrefix_Some in Heq. congruence. }
        injection Heq as -> ->. by exists before, after.
Qed.

Lemma includes_false s pattern : includes s pattern = false ↔ ¬ occursIn pattern s.
Proof. rewrite <- includes_occursIn. by destruct (includes s pattern). Qed.

Lemma occursIn_cons pattern c s : occursIn pattern s → occursIn pattern (c :: s).
Proof. intros (before & after & ->). by exists (c :: before), after. Qed.

(** A marker whose first character occurs nowhere else in it cannot
    begin in a text and end inside a copy of itself behind that text. *)
Lemma stripPrefix_fresh h tail x y :
  h ∉ tail →
  is_Some (stripPrefix tail (x ++ h :: y)) → is_Some (stripPrefix tail x).
Proof.
  revert x. induction tail as [|a tail IH]; intros x Hfresh; simpl; [by eauto|].
  apply not_elem_of_cons in Hfresh as [Hne Hfresh].
  destruct x as [|c x]; simpl.
  - rewrite decide_False by done. by intros [? ?].
  - case_decide; [by apply IH | done].
Qed.

Lemma stripPrefix_straddle h tail x rest :
  h ∉ tail → x ≠ [] → ¬ occursIn (h :: tail) x →
  stripPrefix (h :: tail) (x ++ (h :: tail) ++ rest) = None.
Proof.
  intros Hfresh Hx Hnot. destruct x as [|c x]; [done|]. simpl.
  case_decide as Hc; [subst c|done].
  destruct (stripPrefix tail (x ++ h :: tail ++ rest)) as [r|] eqn:Hhead; [|done].
  exfalso. apply Hnot.
  destruct (stripPrefix_fresh h tail x (tail ++ rest) Hfresh) as [r' Hr'];
    [by rewrite Hhead|].
  apply stripPrefix_Some in Hr' as ->. by exists [], r'.
Qed.

(** *** The matcher *)

Lemma matchHere_lazy (pattern : list atom) s :
  matchHere (AnyLazy :: pattern) s =
    match matchHere pattern s with
    | Some found => Some found
    | None => match s with
              | [] => None
              | c :: s' => '(m, rest) ← matchHere (AnyLazy :: pattern) s'; Some (c :: m, rest)
              end
    end.
Proof. by destruct s. Qed.

Local Arguments matchHere : simpl never.

(** Pattern characters match the text they spell. *)
Lemma matchHere_literal lit (pattern : list atom) :
  ∀ s,
    matchHere ((Char <$> lit) ++ pattern) s =
      match stripPrefix lit s with
      | Some s' => '(m, rest) ← matchHere pattern s'; Some (lit ++ m, rest)
      | None => None
      end.
Proof.
  induction lit as [|p lit IH]; intros s.
  - simpl. by destruct (matchHere pattern s) as [[m rest]|].
  - destruct s as [|c s]; [done|].
    change (matchHere ((Char <$> p :: lit) ++ pattern) (c :: s))
      with (if decide (p = c)
            then '(m, rest) ← matchHere ((Char <$> lit) ++ pattern) s; Some (c :: m, rest)
            else None).
    simpl stripPrefix. case_decide; [subst c|done].
    rewrite IH. destruct (stripPrefix lit s) as [s'|]; [|done].
    by destruct (matchHere pattern s') as [[m rest]|].
Qed.

Lemma matchHere_chars lit s :
  matchHere (Char <$> lit) s = rest ← stripPrefix lit s; Some (lit, rest).
Proof.
  rewrite <- (app_nil_r (Char <$> lit)), matchHere_literal.
  destruct (stripPrefix lit s); [|done]. simpl. by rewrite app_nil_r.
Qed.

(** What the lazy atom and the closing marker match ends with the
    marker ... *)
Lemma matchHere_lazy_sound stop s m rest :
  matchHere (AnyLazy :: (Char <$> stop)) s = Some (m, rest) →
  s = m ++ rest ∧ ∃ mid, m = mid ++ stop.
Proof.
  revert m rest. induction s as [|c s IH]; intros m rest;
    rewrite matchHere_lazy, matchHere_chars.
  - destruct (stripPrefix stop []) as [r|] eqn:Hhead; simpl; [|done].
    intros [= <- <-]. apply stripPrefix_Some in Hhead.
    split; [done|]. by exists [].
  - destruct (stripPrefix stop (c :: s)) as [r|] eqn:Hhead; simpl.
    + intros [= <- <-]. apply stripPrefix_Some in Hhead.
      split; [done|]. by exists [].
    + destruct (matchHere (AnyLazy :: (Char <$> stop)) s) as [[m' rest']|] eqn:Hskip;
        simpl; [|done].
      intros [= <- <-]. destruct (IH m' rest' eq_refl) as [-> [mid ->]].
      split; [done|]. by exists (c :: mid).
Qed.

(** ... and is the shortest there is. *)
Lemma matchHere_lazy_first h tail mid after :
  h ∉ tail → ¬ occursIn (h :: tail) mid →
  matchHere (AnyLazy :: (Char <$> h :: tail)) (mid ++ (h :: tail) ++ after)
    = Some (mid ++ h :: tail, after).
Proof.
  intros Hfresh. induction mid as [|c mid IH]; intros Hnot;
    rewrite matchHere_lazy, matchHere_chars.
  - rewrite app_nil_l, stripPrefix_app. done.
  - rewrite stripPrefix_straddle by done.
    assert (¬ occursIn (h :: tail) mid) as Hmid.
    { intros Hin. by apply Hnot, occursIn_cons. }
    specialize (IH Hmid). simpl in IH |- *. by rewrite IH.
Qed.

(** *** Searching and replacing *)

Lemma exec_unfold (pattern : list atom) s :
  exec pattern s =
    match matchHere pattern s with
    | Some (m, rest) => Some ([], m, rest)
    | None => match s with
              | [] => None
              | c :: s' => '(before, m, rest) ← exec pattern s'; Some (c :: before, m, rest)
              end
    end.
Proof. by destruct s. Qed.

Lemma matchHere_span_sound start stop s m rest :
  matchHere ((Char <$> start) ++ AnyLazy :: (Char <$> stop)) s = Some (m, rest) →
  s = m ++ rest ∧ ∃ mid, m = start ++ mid ++ stop.
Proof.
  rewrite matchHere_literal.
  destruct (stripPrefix start s) as [s'|] eqn:Hhead; [|done].
  apply stripPrefix_Some in Hhead as ->.
  destruct (matchHere (AnyLazy :: (Char <$> stop)) s') as [[m' rest']|] eqn:Hlazy;
    simpl; [|done].
  intros [= <- <-]. apply matchHere_lazy_sound in Hlazy as [-> [mid ->]].
  split; [by rewrite <- !app_assoc|]. by exists mid.
Qed.

(** A match is a span from the opening marker to a closing marker. *)
Lemma exec_span_sound start stop s before m after :
  exec ((Char <$> start) ++ AnyLazy :: (Char <$> stop)) s = Some (before, m, after) →
  s = before ++ m ++ after ∧ ∃ mid, m = start ++ mid ++ stop.
Proof.
  revert before. induction s as [|c s IH]; intros before; rewrite exec_unfold.
  - destruct (matchHere _ []) as [[m' rest']|] eqn:Hhere; [|done].
    intros [= <- <- <-]. by apply matchHere_span_sound in Hhere.
  - destruct (matchHere _ (c :: s)) as [[m' rest']|] eqn:Hhere.
    + intros [= <- <- <-]. by apply matchHere_span_sound in Hhere.
    + destruct (exec _ s) as [[[before' m'] rest']|]; simpl; [|done].
      intros [= <- <- <-]. destruct (IH before' eq_refl) as [-> Hmid]. done.
Qed.

Lemma exec_span_None start stop s :
  (¬ ∃ before mid after, s = before ++ start ++ mid ++ stop ++ after) →
  exec ((Char <$> start) ++ AnyLazy :: (Char <$> stop)) s = None.
Proof.
  intros Hnone.
  destruct (exec _ s) as [[[before m] after]|] eqn:Hexec; [|done].
  apply exec_span_sound in Hexec as [-> [mid ->]].
  exfalso. apply Hnone. exists before, mid, after. by rewrite <- !app_assoc.
Qed.

(** The match found is the first opening marker with the first closing
    marker behind it. *)
Lemma exec_span_first h tail h' tail' before mid after :
  h ∉ tail → h' ∉ tail' →
  ¬ occursIn (h :: tail) before → ¬ occursIn (h' :: tail') mid →
  exec ((Char <$> h :: tail) ++ AnyLazy :: (Char <$> h' :: tail'))
       (before ++ (h :: tail) ++ mid ++ (h' :: tail') ++ after)
    = Some (before, (h :: tail) ++ mid ++ (h' :: tail'), after).
Proof.
  intros Hfresh Hfresh' Hbefore Hmid.
  induction before as [|c before IH]; rewrite exec_unfold, matchHere_literal.
  - rewrite app_nil_l, stripPrefix_app, matchHere_lazy_first by done.
    done.
  - rewrite stripPrefix_straddle by done.
    assert (¬ occursIn (h :: tail) before) as Hb.
    { intros Hin. by apply Hbefore, occursIn_cons. }
    specialize (IH Hb). simpl in IH |- *. by rewrite IH.
Qed.

Lemma getSubstitution_plain matched before after replacement :
  "$"%char ∉ replacement →
  getSubstitution matched before after replacement = replacement.
Proof.
  induction replacement as [|c rest IH]; [done|].
  intros [Hc Hrest]%not_elem_of_cons. simpl.
  rewrite decide_False by done. by rewrite IH.
Qed.

End MatchingFacts.

Section PatcherFacts.

Variable README_PATH : string.

Implicit Types (content statsBlock before mid after : list ascii) (w : world).

(** *** The markers and the rendered block *)

(** A closed statement with a decision procedure, settled by running
    it. *)
Ltac by_evaluation := apply (bool_decide_unpack _); by vm_compute.

(** No character of the markers has a meaning of its own in a pattern,
    so the pattern built from them matches them letter by letter. *)
Lemma markers_literal :
  forallb (λ c, negb (syntaxCharacter c)) (START_MARKER ++ END_MARKER) = true.
Proof. by vm_compute. Qed.

(** Both markers begin with a character they do not have again. *)
Lemma START_MARKER_fresh : "<"%char ∉ tail START_MARKER.
Proof. by_evaluation. Qed.

Lemma END_MARKER_fresh : "<"%char ∉ tail END_MARKER.
Proof. by_evaluation. Qed.

Lemma exec_spanPattern_first before mid after :
  ¬ occursIn START_MARKER before → ¬ occursIn END_MARKER mid →
  exec spanPattern (before ++ START_MARKER ++ mid ++ END_MARKER ++ after)
    = Some (before, START_MARKER ++ mid ++ END_MARKER, after).
Proof.
  intros Hbefore Hmid.
  exact (exec_span_first "<" (tail START_MARKER) "<" (tail END_MARKER)
           before mid after START_MARKER_fresh END_MARKER_fresh Hbefore Hmid).
Qed.

Lemma exec_spanPattern_None content :
  (¬ ∃ before mid after,
       content = before ++ START_MARKER ++ mid ++ END_MARKER ++ after) →
  exec spanPattern content = None.
Proof. apply exec_span_None. Qed.

Lemma encodeUnit_plain c : "$"%char ∉ encodeUnit c.
Proof.
  destruct c as [[] [] [] [] [] [] [] []]; by_evaluation.
Qed.

Lemma encodeURIComponent_plain s : "$"%char ∉ encodeURIComponent s.
Proof.
  unfold encodeURIComponent. rewrite list_elem_of_bind.
  intros (c & Hin & _). by apply encodeUnit_plain in Hin.
Qed.

(** The rendered block has no [$], so [replace] inserts it as it is. *)
Lemma renderStats_plain stats : "$"%char ∉ renderStats stats.
Proof.
  unfold renderStats, badge.
  repeat (apply not_elem_of_app; split);
    first [ apply encodeURIComponent_plain
          | by_evaluation ].
Qed.

(** *** The first span of a text *)

Lemma app_eq_longer {A} (l1 l2 k1 k2 : list A) :
  l1 ++ l2 = k1 ++ k2 → (length l1 ≤ length k1)%nat →
  ∃ d, k1 = l1 ++ d ∧ l2 = d ++ k2.
Proof.
  revert k1. induction l1 as [|x l1 IH]; intros k1 Heq Hlen.
  - exists k1. by simplify_eq/=.
  - destruct k1 as [|y k1]; simpl in Hlen; [lia|].
    simplify_eq/=. destruct (IH k1) as (d & -> & ->); [done|lia|]. by exists d.
Qed.

(** A text in which a marker occurs splits at its first occurrence. *)
Lemma first_occurrence h tl s :
  occursIn (h :: tl) s →
  ∃ before after,
    s = before ++ (h :: tl) ++ after ∧ ¬ occursIn (h :: tl) before ∧
    ∀ a b, s = a ++ (h :: tl) ++ b → (length before ≤ length a)%nat.
Proof.
  induction s as [|c s IH]; intros Hocc.
  { destruct Hocc as ([|??] & ? & ?); done. }
  destruct (stripPrefix (h :: tl) (c :: s)) as [rest|] eqn:Hhead.
  - apply stripPrefix_Some in Hhead. exists [], rest.
    split; [done|]. split; [|simpl; lia].
    intros ([|??] & ? & ?); done.
  - assert (∀ a b, c :: s = a ++ (h :: tl) ++ b →
              ∃ a', a = c :: a' ∧ s = a' ++ (h :: tl) ++ b) as Hshift.
    { intros [|c' a] b Heq.
      - rewrite app_nil_l in Heq. apply stripPrefix_Some in Heq. congruence.
      - injection Heq as -> ->. by exists a. }
    destruct Hocc as (a & b & Heq).
    destruct (Hshift a b Heq) as (a' & -> & Hs).
    destruct IH as (before & after & Hsplit & Hnot & Hleast); [by exists a', b|].
    exists (c :: before), after. split; [by rewrite Hsplit|]. split.
    + intros ([|c' x] & y & Hx).
      * rewrite app_nil_l in Hx.
        assert (c :: s = (h :: tl) ++ (y ++ (h :: tl) ++ after)) as Hc.
        { rewrite Hsplit, app_comm_cons, Hx. by rewrite <- !app_assoc. }
        apply stripPrefix_Some in Hc. congruence.
      * injection Hx as -> ->. apply Hnot. by exists x, y.
    + intros a0 b0 Heq0. destruct (Hshift a0 b0 Heq0) as (a0' & -> & Hs0).
      simpl. apply le_n_S. by apply (Hleast a0' b0).
Qed.

(** A text with an opening marker and a closing marker behind it has
    a first opening marker and a nearest closing marker behind that. *)
Lemma first_span content :
  (∃ a b c, content = a ++ START_MARKER ++ b ++ END_MARKER ++ c) →
  ∃ before mid after,
    content = before ++ START_MARKER ++ mid ++ END_MARKER ++ after ∧
    ¬ occursIn START_MARKER before ∧ ¬ occursIn END_MARKER mid.
Proof.
  intros (a & b & c & Heq).
  destruct (first_occurrence "<" (tail START_MARKER) content)
    as (before & rest & Hsplit & Hbefore & Hleast).
  { by exists a, (b ++ END_MARKER ++ c). }
  change ("<"%char :: tail START_MARKER) with START_MARKER in *.
  destruct (app_eq_longer before (START_MARKER ++ rest) a
              (START_MARKER ++ b ++ END_MARKER ++ c)) as (a' & -> & Hrest).
  { by rewrite <- Hsplit. } { by apply (Hleast a (b ++ END_MARKER ++ c)). }
  destruct (app_eq_longer START_MARKER rest (a' ++ START_MARKER ++ b)
              (END_MARKER ++ c)) as (d & Hd & ->).
  { by rewrite Hrest, <- !app_assoc. } { rewrite !length_app. lia. }
  destruct (first_occurrence "<" (tail END_MARKER) (d ++ END_MARKER ++ c))
    as (mid & after & Hsplit' & Hmid & _).
  { by exists d, c. }
  change ("<"%char :: tail END_MARKER) with END_MARKER in *.
  exists before, mid, after. by rewrite Hsplit, Hsplit'.
Qed.

Lemma first_span_unique before mid after before' mid' after' :
  before ++ START_MARKER ++ mid ++ END_MARKER ++ after =
    before' ++ START_MARKER ++ mid' ++ END_MARKER ++ after' →
  ¬ occursIn START_MARKER before → ¬ occursIn END_MARKER mid →
  ¬ occursIn START_MARKER before' → ¬ occursIn END_MARKER mid' →
  before' = before ∧ mid' = mid ∧ after' = after.
Proof.
  intros Heq Hbefore Hmid Hbefore' Hmid'.
  pose proof (exec_spanPattern_first before mid after Hbefore Hmid) as Hexec.
  rewrite Heq, (exec_spanPattern_first before' mid' after') in Hexec by done.
  injection Hexec as -> Hm ->. by simplify_list_eq.
Qed.

(** The search fails only on a text without a span. *)
Lemma exec_spanPattern_None_inv content :
  exec spanPattern content = None →
  ¬ ∃ before mid after,
      content = before ++ START_MARKER ++ mid ++ END_MARKER ++ after.
Proof.
  intros Hexec Hspan.
  destruct (first_span content Hspan) as (before & mid & after & -> & Hbefore & Hmid).
  by rewrite exec_spanPattern_first in Hexec.
Qed.

(** *** [injectStats] *)

Lemma injectStats_missing statsBlock w content :
  files w !! README_PATH = Some content →
  includes content START_MARKER = false ∨ includes content END_MARKER = false →
  injectStats README_PATH statsBlock w = (Throw ConfigError, w).
Proof.
  intros Hfile Hmissing. unfold injectStats, bind, readFileSync. rewrite Hfile.
  by destruct Hmissing as [-> | ->]; rewrite ?orb_true_r.
Qed.

Lemma injectStats_present statsBlock w content :
  files w !! README_PATH = Some content →
  includes content START_MARKER = true → includes content END_MARKER = true →
  let updated := replace content spanPattern statsBlock in
  injectStats README_PATH statsBlock w =
    (Return (), mkWorld (<[README_PATH := updated]> (files w))
                        (writes w ++ [(README_PATH, updated)])).
Proof.
  intros Hfile Hstart Hend. unfold injectStats, bind, readFileSync.
  by rewrite Hfile, Hstart, Hend.
Qed.

(** With the first span marked out and a block without [$], the span
    is what gets replaced. *)
Lemma injectStats_span statsBlock w before mid after :
  files w !! README_PATH =
    Some (before ++ START_MARKER ++ mid ++ END_MARKER ++ after) →
  ¬ occursIn START_MARKER before → ¬ occursIn END_MARKER mid →
  "$"%char ∉ statsBlock →
  injectStats README_PATH statsBlock w =
    (Return (), mkWorld (<[README_PATH := before ++ statsBlock ++ after]> (files w))
                        (writes w ++ [(README_PATH, before ++ statsBlock ++ after)])).
Proof.
  intros Hfile Hbefore Hmid Hplain.
  rewrite (injectStats_present _ _ _ Hfile).
  - unfold replace. rewrite exec_spanPattern_first by done.
    by rewrite getSubstitution_plain.
  - apply includes_occursIn. by exists before, (mid ++ END_MARKER ++ after).
  - apply includes_occursIn. exists (before ++ START_MARKER ++ mid), after.
    by rewrite <- !app_assoc.
Qed.

End PatcherFacts.

(** C6.  When the README has the start marker with the end marker behind
    it, whatever is in between, patching replaces just the span from the
    first start marker through the nearest end marker behind it, both
    included, with the rendered block: the text before that start marker
    and the text after that end marker are written back as they were.
    There is one such span only. *)
Theorem inject_replaces_marked_span
    (README_PATH : string) (stats : StatsResult) (w : world) (content : list ascii) :
  files w !! README_PATH = Some content →
  (∃ a b c, content = a ++ START_MARKER ++ b ++ END_MARKER ++ c) →
  ∃ before mid after,
    content = before ++ START_MARKER ++ mid ++ END_MARKER ++ after ∧
    ¬ occursIn START_MARKER before ∧ ¬ occursIn END_MARKER mid ∧
    (∀ before' mid' after',
        content = before' ++ START_MARKER ++ mid' ++ END_MARKER ++ after' →
        ¬ occursIn START_MARKER before' → ¬ occursIn END_MARKER mid' →
        before' = before ∧ mid' = mid ∧ after' = after) ∧
    injectStats README_PATH (renderStats stats) w =
      (Return (),
       mkWorld (<[README_PATH := before ++ renderStats stats ++ after]> (files w))
               (writes w ++ [(README_PATH, before ++ renderStats stats ++ after)])).
Proof.
  intros Hfile Hspan.
  destruct (first_span content Hspan) as (before & mid & after & -> & Hbefore & Hmid).
  exists before, mid, after.
  split; [done|]. split; [done|]. split; [done|]. split.
  - intros before' mid' after' Heq Hbefore' Hmid'.
    by apply (first_span_unique before mid after before' mid' after').
  - apply (injectStats_span README_PATH _ w before mid after); [done..|].
    apply renderStats_plain.
Qed.

Lemma inject_replaces_marked_span_witness :
  let content :=
    text "# Profile " ++ START_MARKER ++ text "old badges" ++ END_MARKER
      ++ text " footer" in
  let w := mkWorld {[ "README.md" := content ]} [] in
  let written :=
    text "# Profile " ++ renderStats (mkStats 10 2 2) ++ text " footer" in
  injectStats "README.md" (renderStats (mkStats 10 2 2)) w =
    (Return (), mkWorld (<["README.md" := written]> (files w)) [("README.md", written)]).
Proof.
  intros content w written.
  destruct (inject_replaces_marked_span "README.md" (mkStats 10 2 2) w content)
    as (before & mid & after & _ & _ & _ & Hunique & Hrun).
  - reflexivity.
  - exists (text "# Profile "), (text "old badges"), (text " footer"). reflexivity.
  - destruct (Hunique (text "# Profile ") (text "old badges") (text " footer"))
      as (Hb & _ & Ha).
    + reflexivity.
    + apply includes_false. reflexivity.
    + apply includes_false. reflexivity.
    + rewrite <- Hb, <- Ha in Hrun. exact Hrun.
Defined.

(** C7.  When the README lacks the start marker or lacks the end marker,
    [injectStats] throws the error for missing markers (the [ConfigError]
    of the specification) and leaves the file system as it was: the files
    are the same and nothing has been written. *)
Theorem inject_fails_without_markers
    (README_PATH : string) (statsBlock : list ascii) (w : world) (content : list ascii) :
  files w !! README_PATH = Some content →
  ¬ occursIn START_MARKER content ∨ ¬ occursIn END_MARKER content →
  ∃ w',
    injectStats README_PATH statsBlock w = (Throw ConfigError, w') ∧
    files w' = files w ∧ writes w' = writes w.
Proof.
  intros Hfile Hmissing. exists w. split; [|done].
  apply (injectStats_missing README_PATH statsBlock w content Hfile).
  by rewrite !includes_false.
Qed.

Lemma inject_fails_without_markers_witness :
  let content := text "# Profile " ++ START_MARKER ++ text "old badges" in
  let w := mkWorld {[ "README.md" := content ]} [] in
  ∃ w',
    injectStats "README.md" (renderStats (mkStats 10 2 2)) w = (Throw ConfigError, w') ∧
    files w' = files w ∧ writes w' = [].
Proof.
  intros content w.
  apply (inject_fails_without_markers "README.md" _ w content).
  - reflexivity.
  - right. apply includes_false. reflexivity.
Defined.

(** C9.  When the README has both markers but no start marker with an
    end marker behind it, [injectStats] does not throw: the replacement
    finds nothing to replace and the file is written back with the content
    that was read. *)
Theorem inject_rewrites_content_without_span
    (README_PATH : string) (statsBlock : list ascii) (w : world) (content : list ascii) :
  files w !! README_PATH = Some content →
  occursIn START_MARKER content → occursIn END_MARKER content →
  (¬ ∃ before mid after,
       content = before ++ START_MARKER ++ mid ++ END_MARKER ++ after) →
  replace content spanPattern statsBlock = content ∧
  injectStats README_PATH statsBlock w =
    (Return (), mkWorld (files w) (writes w ++ [(README_PATH, content)])).
Proof.
  intros Hfile Hstart Hend Hnone.
  assert (replace content spanPattern statsBlock = content) as Hsame.
  { unfold replace. by rewrite exec_spanPattern_None. }
  split; [done|].
  rewrite (injectStats_present README_PATH statsBlock w content Hfile)
    by by apply includes_occursIn.
  cbv zeta. rewrite Hsame. by rewrite insert_id.
Qed.

Lemma inject_rewrites_content_without_span_witness :
  let content :=
    END_MARKER ++ text " badges go above " ++ START_MARKER ++ text " footer" in
  let w := mkWorld {[ "README.md" := content ]} [] in
  replace content spanPattern (renderStats (mkStats 10 2 2)) = content ∧
  injectStats "README.md" (renderStats (mkStats 10 2 2)) w =
    (Return (), mkWorld (files w) [("README.md", content)]).
Proof.
  intros content w.
  apply (inject_rewrites_content_without_span "README.md" _ w content).
  - reflexivity.
  - exists (END_MARKER ++ text " badges go above "), (text " footer").
    unfold content. by rewrite <- !app_assoc.
  - exists [], (text " badges go above " ++ START_MARKER ++ text " footer").
    reflexivity.
  - apply exec_spanPattern_None_inv. reflexivity.
Defined.

(** C10.  When the README has two or more spans from a start marker
    through an end marker, one behind the other, patching replaces the
    first of them only: every later span, with its markers and what is
    between them, is written back as it was. *)
Theorem inject_replaces_first_span_only
    (README_PATH : string) (stats : StatsResult) (w : world)
    (before mid between later after : list ascii) :
  files w !! README_PATH =
    Some (before ++ START_MARKER ++ mid ++ END_MARKER
            ++ between ++ START_MARKER ++ later ++ END_MARKER ++ after) →
  ¬ occursIn START_MARKER before → ¬ occursIn END_MARKER mid →
  let written :=
    before ++ renderStats stats
      ++ between ++ START_MARKER ++ later ++ END_MARKER ++ after in
  injectStats README_PATH (renderStats stats) w =
    (Return (), mkWorld (<[README_PATH := written]> (files w))
                        (writes w ++ [(README_PATH, written)])).
Proof.
  intros Hfile Hbefore Hmid.
  apply (injectStats_span README_PATH _ w before mid
           (between ++ START_MARKER ++ later ++ END_MARKER ++ after));
    [done..|apply renderStats_plain].
Qed.

Lemma inject_replaces_first_span_only_witness :
  let content :=
    text "top " ++ START_MARKER ++ text "one" ++ END_MARKER
      ++ text " middle " ++ START_MARKER ++ text "two" ++ END_MARKER ++ text " end" in
  let w := mkWorld {[ "README.md" := content ]} [] in
  let written :=
    text "top " ++ renderStats (mkStats 10 2 2)
      ++ text " middle " ++ START_MARKER ++ text "two" ++ END_MARKER ++ text " end" in
  injectStats "README.md" (renderStats (mkStats 10 2 2)) w =
    (Return (), mkWorld (<["README.md" := written]> (files w)) [("README.md", written)]).
Proof.
  intros content w written.
  apply (inject_replaces_first_span_only "README.md" (mkStats 10 2 2) w
           (text "top ") (text "one") (text " middle ") (text "two") (text " end")).
  - reflexivity.
  - apply includes_false. reflexivity.
  - apply includes_false. reflexivity.
Defined.

(** * Further properties *)

(** ** More on the statistics *)

Section StatsMore.

Implicit Types (day : ContributionDay) (days : list ContributionDay).

Lemma computeStats_spec days :
  computeStats days = mkStats (sumCounts days) (longestRun days) (trailingRun days).
Proof.
  pose proof (longestStreak_longestRun days) as Hl.
  pose proof (currentStreak_trailingRun days) as Hc.
  unfold computeStats in *. simpl in *. rewrite Hl, Hc. f_equal.
  unfold scan. by rewrite foldl_scan_total.
Qed.

Lemma runLength_all days : Forall active days ↔ runLength days = length days.
Proof.
  induction days as [|day days IH]; simpl; [done|].
  rewrite Forall_cons, IH. case_decide; [|by intuition].
  split; [intros [_ ->]; done | intros [= ->]; done].
Qed.

Lemma runLength_none days : runLength (reverse days) = 0%nat ∧ days ≠ [] →
  ∃ before day, days = before ++ [day] ∧ ¬ active day.
Proof.
  intros [Hrun Hne]. destruct days as [|d days _] using rev_ind; [done|].
  rewrite reverse_snoc in Hrun. simpl in Hrun. case_decide; [done|]. eauto.
Qed.

Lemma longestRun_le_length days : (longestRun days ≤ length days)%nat.
Proof.
  induction days as [|day days IH]; [done|].
  change (longestRun (day :: days))
    with (Nat.max (runLength (day :: days)) (longestRun days)).
  pose proof (runLength_le_length (day :: days)). simpl in *. lia.
Qed.

Lemma longestRun_zero days : longestRun days = 0%nat ↔ Forall (λ day, ¬ active day) days.
Proof.
  induction days as [|day days IH]; [done|].
  change (longestRun (day :: days))
    with (Nat.max (runLength (day :: days)) (longestRun days)).
  rewrite Forall_cons, <- IH. simpl. case_decide; [|intuition lia].
  split; [lia | intros [? _]; done].
Qed.

Lemma longestRun_all days : Forall active days ↔ longestRun days = length days.
Proof.
  split.
  - intros Hall. apply Nat.le_antisymm; [apply longestRun_le_length|].
    etrans; [|apply runLength_le_longestRun]. by apply runLength_all in Hall as ->.
  - intros Hlen.
    destruct (longestRun_attained days) as (before & run & after & Heq & Hrun & Hl).
    rewrite Hlen, Heq, !length_app in Hl.
    destruct before; [|simpl in Hl; lia]. destruct after; [|simpl in Hl; lia].
    by rewrite Heq, app_nil_l, app_nil_r.
Qed.

(** An idle day ends the run in front of it. *)
Lemma runLength_app_idle days day rest :
  ¬ active day → runLength (days ++ day :: rest) = runLength days.
Proof.
  intros Hidle. induction days as [|d days IH]; simpl.
  - by rewrite decide_False.
  - case_decide; [by rewrite IH | done].
Qed.

Lemma longestRun_app_idle days day rest :
  ¬ active day →
  longestRun (days ++ day :: rest) = Nat.max (longestRun days) (longestRun rest).
Proof.
  intros Hidle. induction days as [|d days IH].
  - simpl. rewrite decide_False by done. lia.
  - change (longestRun ((d :: days) ++ day :: rest))
      with (Nat.max (runLength ((d :: days) ++ day :: rest))
                    (longestRun (days ++ day :: rest))).
    change (longestRun (d :: days))
      with (Nat.max (runLength (d :: days)) (longestRun days)).
    rewrite runLength_app_idle, IH by done. lia.
Qed.

Lemma trailingRun_app_idle days day rest :
  ¬ active day → trailingRun (days ++ day :: rest) = trailingRun rest.
Proof.
  intros Hidle. unfold trailingRun.
  rewrite reverse_app, reverse_cons, <- app_assoc. by apply runLength_app_idle.
Qed.

Lemma longestRun_reverse_le days : (longestRun (reverse days) ≤ longestRun days)%nat.
Proof.
  destruct (longestRun_attained (reverse days))
    as (before & run & after & Heq & Hrun & <-).
  apply (f_equal reverse) in Heq.
  rewrite reverse_involutive, !reverse_app, <- app_assoc in Heq. rewrite Heq.
  rewrite <- (length_reverse run). apply longestRun_bound. by apply Forall_reverse.
Qed.

Lemma longestRun_reverse days : longestRun (reverse days) = longestRun days.
Proof.
  apply Nat.le_antisymm; [apply longestRun_reverse_le|].
  rewrite <- (reverse_involutive days) at 1. apply longestRun_reverse_le.
Qed.

Lemma scan_longest days : s_longest (scan days) = longestRun days.
Proof. exact (longestStreak_longestRun days). Qed.

(** A run of active days behind a sequence. *)
Lemma longestRun_app_active days run :
  Forall active run →
  longestRun (days ++ run) =
    Nat.max (longestRun days) (trailingRun days + length run)%nat.
Proof.
  induction run as [|day run IH] using rev_ind; intros Hrun.
  - rewrite app_nil_r. simpl.
    pose proof (scan_rolling_le_longest days) as Hle.
    rewrite scan_rolling, scan_longest in Hle. lia.
  - apply Forall_app in Hrun as [Hrun Hday]. apply Forall_inv in Hday.
    rewrite app_assoc, <- scan_longest, scan_snoc, scanStep_active by done.
    simpl. rewrite scan_longest, scan_rolling, (IH Hrun).
    unfold trailingRun. rewrite reverse_app, runLength_app_active
      by by apply Forall_reverse.
    rewrite length_reverse, length_app. simpl. lia.
Qed.

Lemma trailingRun_app_active days run :
  Forall active run → trailingRun (days ++ run) = (trailingRun days + length run)%nat.
Proof.
  intros Hrun. unfold trailingRun.
  rewrite reverse_app, runLength_app_active by by apply Forall_reverse.
  rewrite length_reverse. lia.
Qed.




End StatsMore.

(** X1.  Neither streak exceeds the number of days, and either one equals
    the number of days exactly when every day has a count above 0. *)
Theorem streaks_bounded_by_days (days : list ContributionDay) :
  (longestStreak (computeStats days) ≤ length days)%nat ∧
  (currentStreak (computeStats days) ≤ length days)%nat ∧
  (Forall active days ↔ longestStreak (computeStats days) = length days) ∧
  (Forall active days ↔ currentStreak (computeStats days) = length days).
Proof.
  rewrite computeStats_spec. simpl. split; [apply longestRun_le_length|].
  split; [|split; [apply longestRun_all|]].
  - unfold trailingRun. rewrite <- (length_reverse days). apply runLength_le_length.
  - unfold trailingRun. rewrite <- (length_reverse days), <- runLength_all.
    split; [apply Forall_reverse|].
    intros H. apply Forall_reverse in H. by rewrite reverse_involutive in H.
Qed.

Lemma streaks_bounded_by_days_witness :
  let days := [mkDay "2024-05-01" 1; mkDay "2024-05-02" 4; mkDay "2024-05-03" 2] in
  Forall active days ∧
  longestStreak (computeStats days) = length days ∧
  currentStreak (computeStats days) = length days.
Proof.
  intros days.
  assert (Forall active days) as Hall.
  { repeat constructor; unfold active; simpl; lia. }
  destruct (streaks_bounded_by_days days) as (_ & _ & Hlongest & Hcurrent).
  split; [exact Hall|]. split; [by apply Hlongest | by apply Hcurrent].
Defined.

(** X2.  The longest streak is 0 exactly when no day has a count above
    0; the current streak is 0 exactly when there is no day or the last
    day has no count above 0. *)
Theorem streaks_zero (days : list ContributionDay) :
  (longestStreak (computeStats days) = 0%nat ↔ Forall (λ day, count day ≤ 0) days) ∧
  (currentStreak (computeStats days) = 0%nat ↔
     days = [] ∨ ∃ before day, days = before ++ [day] ∧ count day ≤ 0).
Proof.
  rewrite computeStats_spec. simpl. split.
  - rewrite longestRun_zero. apply Forall_proper; [|done].
    intros day. unfold active. lia.
  - destruct days as [|day days _] using rev_ind; [by intuition|].
    rewrite trailingRun_snoc. split.
    + case_decide as Hact; [done|]. intros _. right. exists days, day.
      unfold active in Hact. split; [done | lia].
    + intros [Hnil|(before & day' & Heq & Hday)].
      { by destruct days. }
      apply app_inj_tail in Heq as [_ ->].
      rewrite decide_False; [done | unfold active; lia].
Qed.

Lemma streaks_zero_witness :
  let days := [mkDay "2024-05-01" 3; mkDay "2024-05-02" 0] in
  currentStreak (computeStats days) = 0%nat ∧
  longestStreak (computeStats [mkDay "2024-05-01" 0; mkDay "2024-05-02" 0]) = 0%nat.
Proof.
  intros days. split.
  - destruct (streaks_zero days) as [_ Hcurrent]. apply Hcurrent. right.
    exists [mkDay "2024-05-01" 3], (mkDay "2024-05-02" 0).
    split; [reflexivity | simpl; lia].
  - destruct (streaks_zero [mkDay "2024-05-01" 0; mkDay "2024-05-02" 0])
      as [Hlongest _].
    apply Hlongest. constructor; [simpl; lia|]. constructor; [simpl; lia|]. constructor.
Defined.

(** X3.  A day without a count above 0 cuts the sequence in two: the
    longest streak of the whole is the larger of the longest streaks of
    the two parts, and the current streak is that of the part behind the
    day. *)
Theorem idle_day_splits_streaks
    (before : list ContributionDay) (day : ContributionDay)
    (after : list ContributionDay) :
  count day ≤ 0 →
  longestStreak (computeStats (before ++ day :: after)) =
    Nat.max (longestStreak (computeStats before))
            (longestStreak (computeStats after)) ∧
  currentStreak (computeStats (before ++ day :: after)) =
    currentStreak (computeStats after).
Proof.
  intros Hday. assert (¬ active day) as Hidle by (unfold active; lia).
  rewrite !computeStats_spec. simpl.
  by rewrite longestRun_app_idle, trailingRun_app_idle.
Qed.

Lemma idle_day_splits_streaks_witness :
  let d (n : Z) : ContributionDay := mkDay "2024-05-01" n in
  longestStreak (computeStats ([d 1; d 2; d 3] ++ d 0 :: [d 4; d 5])) = 3%nat ∧
  currentStreak (computeStats ([d 1; d 2; d 3] ++ d 0 :: [d 4; d 5])) = 2%nat.
Proof.
  intros d.
  destruct (idle_day_splits_streaks [d 1; d 2; d 3] (d 0) [d 4; d 5]) as [Hl Hc].
  - simpl. lia.
  - split; [exact Hl | exact Hc].
Defined.

(** X4.  Days with counts above 0 added behind a sequence lengthen the
    current streak by their number, and the longest streak becomes the
    larger of the old longest streak and the new current streak. *)
Theorem active_days_extend_streak (days run : list ContributionDay) :
  Forall active run →
  currentStreak (computeStats (days ++ run)) =
    (currentStreak (computeStats days) + length run)%nat ∧
  longestStreak (computeStats (days ++ run)) =
    Nat.max (longestStreak (computeStats days))
            (currentStreak (computeStats days) + length run)%nat.
Proof.
  intros Hrun. rewrite !computeStats_spec. simpl.
  by rewrite trailingRun_app_active, longestRun_app_active.
Qed.

Lemma active_days_extend_streak_witness :
  let d (n : Z) : ContributionDay := mkDay "2024-05-01" n in
  currentStreak (computeStats ([d 2; d 0; d 1] ++ [d 3; d 1])) = 3%nat ∧
  longestStreak (computeStats ([d 2; d 0; d 1] ++ [d 3; d 1])) = 3%nat.
Proof.
  intros d.
  destruct (active_days_extend_streak [d 2; d 0; d 1] [d 3; d 1]) as (Hc & Hl).
  - repeat constructor; unfold active; simpl; lia.
  - split; [exact Hc | exact Hl].
Defined.

(** X5.  Reading the sequence backwards does not change the longest
    streak, and turns the current streak into the run of days with a count
    above 0 at the front. *)
Theorem reversed_days_same_longest (days : list ContributionDay) :
  longestStreak (computeStats (reverse days)) = longestStreak (computeStats days) ∧
  currentStreak (computeStats (reverse days)) = runLength days.
Proof.
  rewrite !computeStats_spec. simpl.
  rewrite longestRun_reverse. unfold trailingRun.
  by rewrite reverse_involutive.
Qed.



(** ** More on rendering *)

Section RenderMore.

Implicit Types (s : list ascii) (c : ascii).

Ltac by_evaluation := apply (bool_decide_unpack _); by vm_compute.

Lemma encodeUnit_no_tag c : "<"%char ∉ encodeUnit c.
Proof. destruct c as [[] [] [] [] [] [] [] []]; by_evaluation. Qed.

Lemma encodeURIComponent_no_tag s : "<"%char ∉ encodeURIComponent s.
Proof.
  unfold encodeURIComponent. rewrite list_elem_of_bind.
  intros (c & Hin & _). by apply encodeUnit_no_tag in Hin.
Qed.

(** *** Comment-free texts *)

Lemma commentFree_app s1 s2 :
  commentFree s1 = true → commentFree s2 = true → commentFree (s1 ++ s2) = true.
Proof.
  intros H1 H2. induction s1 as [|c s1 IH]; [done|].
  simpl in *. apply andb_true_iff in H1 as [Hc H1].
  rewrite IH by done. rewrite andb_true_r.
  case_decide; [|done]. by destruct s1.
Qed.

Lemma commentFree_fresh s : "<"%char ∉ s → commentFree s = true.
Proof.
  induction s as [|c s IH]; [done|].
  intros [Hc Hs]%not_elem_of_cons. simpl.
  rewrite decide_False by done. by rewrite IH.
Qed.

Lemma commentFree_drop s1 s2 : commentFree (s1 ++ s2) = true → commentFree s2 = true.
Proof.
  induction s1 as [|c s1 IH]; [done|]. simpl.
  intros [_ H]%andb_true_iff. by apply IH.
Qed.

Lemma commentFree_no_marker s marker :
  commentFree s = true → ¬ occursIn ("<"%char :: "!"%char :: marker) s.
Proof.
  intros Hfree (before & after & ->).
  apply commentFree_drop in Hfree. by vm_compute in Hfree.
Qed.

Lemma renderStats_lines stats :
  renderStats stats = START_MARKER ++ blockLines stats ++ END_MARKER.
Proof. unfold renderStats, blockLines. by rewrite <- !app_assoc. Qed.

Lemma blockLines_commentFree stats : commentFree (blockLines stats) = true.
Proof.
  unfold blockLines, badge. rewrite <- !app_assoc.
  repeat (apply commentFree_app;
          [first [ by vm_compute | apply commentFree_fresh, encodeURIComponent_no_tag ]|]).
  by vm_compute.
Qed.

Lemma blockLines_no_END stats : ¬ occursIn END_MARKER (blockLines stats).
Proof.
  apply (commentFree_no_marker _ (tail (tail END_MARKER))), blockLines_commentFree.
Qed.

(** *** Digits and their grouping *)

Lemma string_of_uint_digits (d : Decimal.uint) :
  Forall (λ c, c ∈ text "0123456789")
    (text (DecimalString.NilEmpty.string_of_uint d)).
Proof.
  induction d; simpl; [constructor|..]; (constructor; [by_evaluation|done]).
Qed.

Lemma decimal_digits n : Forall (λ c, c ∈ text "0123456789") (decimal n).
Proof.
  unfold decimal, DecimalString.NilZero.string_of_uint.
  destruct (N.to_uint n); [|apply string_of_uint_digits..].
  constructor; [by_evaluation|constructor].
Qed.

Lemma digit_not_comma c : c ∈ text "0123456789" → c ≠ ","%char.
Proof. intros Hin ->. revert Hin. by_evaluation. Qed.

Lemma filter_keeps_all {A} (P : A → Prop) `{∀ x, Decision (P x)} (l : list A) :
  Forall P l → filter P l = l.
Proof.
  induction 1 as [|x l Hx Hl IH]; [done|]. by rewrite filter_cons_True, IH.
Qed.

Lemma groupFromRight_filter n :
  ∀ digits, (length digits ≤ n)%nat → Forall (λ c, c ≠ ","%char) digits →
    filter (λ c, c ≠ ","%char) (groupFromRight digits) = digits.
Proof.
  induction n as [|n IH]; intros digits Hlen Hdigits.
  { destruct digits; [done | simpl in Hlen; lia]. }
  destruct digits as [|a [|b [|c [|d digits]]]];
    try (simpl groupFromRight; by apply filter_keeps_all).
  change (groupFromRight (a :: b :: c :: d :: digits))
    with (a :: b :: c :: ","%char :: groupFromRight (d :: digits)).
  inversion Hdigits as [|? ? Ha Hd1]; subst. inversion Hd1 as [|? ? Hb Hd2]; subst.
  inversion Hd2 as [|? ? Hc Hd3]; subst.
  rewrite !filter_cons_True, filter_cons_False, IH by (done || naive_solver || simpl in *; lia).
  done.
Qed.

Lemma groupFromRight_comma n :
  ∀ digits, (length digits ≤ n)%nat → Forall (λ c, c ≠ ","%char) digits →
    ∀ i c, groupFromRight digits !! i = Some c → (c = ","%char ↔ i mod 4 = 3)%nat.
Proof.
  induction n as [|n IH]; intros digits Hlen Hdigits i x Hi.
  { destruct digits; [done | simpl in Hlen; lia]. }
  assert (∀ l : list ascii, (length l ≤ 3)%nat → Forall (λ c, c ≠ ","%char) l →
            l !! i = Some x → (x = ","%char ↔ i mod 4 = 3)%nat) as Hshort.
  { intros l Hl Hall Hx. pose proof (lookup_lt_Some _ _ _ Hx) as Hlt.
    rewrite Forall_lookup in Hall. specialize (Hall _ _ Hx).
    split; [done|]. rewrite Nat.mod_small by lia. lia. }
  destruct digits as [|a [|b [|c [|d digits]]]];
    try (simpl in Hi; eapply Hshort; [|exact Hdigits|exact Hi]; simpl; lia).
  change (groupFromRight (a :: b :: c :: d :: digits))
    with (a :: b :: c :: ","%char :: groupFromRight (d :: digits)) in Hi.
  inversion Hdigits as [|? ? Ha Hd1]; subst. inversion Hd1 as [|? ? Hb Hd2]; subst.
  inversion Hd2 as [|? ? Hc Hd3]; subst.
  destruct i as [|[|[|[|i]]]]; simpl in Hi; simplify_eq; try done.
  replace (S (S (S (S i)))) with (i + 1 * 4)%nat by lia.
  rewrite Nat.Div0.mod_add. apply (IH (d :: digits)); [simpl in *; lia|done..].
Qed.

End RenderMore.


(** X8.  For an integer of a magnitude up to 2^53, [formatNumber] writes
    a negative one as a minus sign before the number without its sign.
    One that is not negative it writes as its decimal digits with commas
    added and nothing else, and, counting from the right, every fourth
    character and no other is a comma. *)
Theorem formatNumber_groups (value : Z) :
  (- 2 ^ 53 ≤ value < 0 → formatNumber value = "-"%char :: formatNumber (- value)) ∧
  (0 ≤ value ≤ 2 ^ 53 →
   filter (λ c, c ≠ ","%char) (formatNumber value) = decimal (Z.to_N value) ∧
   ∀ i c, reverse (formatNumber value) !! i = Some c →
     (c = ","%char ↔ i mod 4 = 3)%nat).
Proof.
  assert (∀ n, Forall (λ c, c ≠ ","%char) (reverse (decimal n))) as Hdigits.
  { intros n. apply Forall_reverse. eapply Forall_impl; [apply decimal_digits|].
    intros c. apply digit_not_comma. }
  unfold formatNumber. split.
  - intros Hneg. destruct (Z.ltb_spec value 0); [|lia].
    destruct (Z.ltb_spec (- value) 0); [lia|].
    by replace (Z.abs_N (- value)) with (Z.abs_N value) by by destruct value.
  - intros Hpos. destruct (Z.ltb_spec value 0); [lia|].
    replace (Z.abs_N value) with (Z.to_N value) by by destruct value.
    split.
    + rewrite filter_reverse, (groupFromRight_filter _ _ (Nat.le_refl _)) by done.
      apply reverse_involutive.
    + intros i c. rewrite reverse_involutive.
      by apply (groupFromRight_comma _ _ (Nat.le_refl _)).
Qed.

Lemma formatNumber_groups_witness :
  formatNumber (-1234567) = "-"%char :: formatNumber 1234567 ∧
  filter (λ c, c ≠ ","%char) (formatNumber 1234567) = text "1234567" ∧
  formatNumber 1234567 = text "1,234,567".
Proof.
  destruct (formatNumber_groups (-1234567)) as [Hneg _].
  destruct (formatNumber_groups 1234567) as [_ Hpos].
  split; [apply Hneg; lia|]. split; [|reflexivity].
  destruct Hpos as [Hdigits _]; [lia | exact Hdigits].
Defined.

(** X9.  The rendered block is the start marker, lines in which the end
    marker does not occur, and the end marker: it is one span, whatever
    the statistics, and it has no [$]. *)
Theorem rendered_block_is_one_span (stats : StatsResult) :
  renderStats stats = START_MARKER ++ blockLines stats ++ END_MARKER ∧
  ¬ occursIn END_MARKER (blockLines stats) ∧
  "$"%char ∉ renderStats stats.
Proof.
  split; [apply renderStats_lines|].
  split; [apply blockLines_no_END | apply renderStats_plain].
Qed.

(** X10.  Patching a README that has a span and patching it again puts
    the block of the second run where the block of the first run was: the
    text before and after the span stays as it was through both runs, and
    a second run with the same statistics writes the file it found. *)
Theorem inject_twice
    (README_PATH : string) (first second : StatsResult) (w : world)
    (before mid after : list ascii) :
  files w !! README_PATH =
    Some (before ++ START_MARKER ++ mid ++ END_MARKER ++ after) →
  ¬ occursIn START_MARKER before → ¬ occursIn END_MARKER mid →
  let written stats := before ++ renderStats stats ++ after in
  bind (injectStats README_PATH (renderStats first))
       (λ _, injectStats README_PATH (renderStats second)) w =
    (Return (),
     mkWorld (<[README_PATH := written second]> (files w))
             (writes w ++ [(README_PATH, written first); (README_PATH, written second)])).
Proof.
  intros Hfile Hbefore Hmid written. unfold bind.
  rewrite (injectStats_span README_PATH _ w before mid after)
    by (done || apply renderStats_plain).
  rewrite (injectStats_span README_PATH _ _ before (blockLines first) after).
  - cbn [files writes]. unfold written. by rewrite insert_insert_eq, <- app_assoc.
  - cbn [files]. rewrite lookup_insert_eq, renderStats_lines. by rewrite <- !app_assoc.
  - done.
  - apply blockLines_no_END.
  - apply renderStats_plain.
Qed.

Lemma inject_twice_witness :
  let content :=
    text "# Profile " ++ START_MARKER ++ text "old badges" ++ END_MARKER
      ++ text " footer" in
  let w := mkWorld {[ "README.md" := content ]} [] in
  let written stats := text "# Profile " ++ renderStats stats ++ text " footer" in
  bind (injectStats "README.md" (renderStats (mkStats 10 2 2)))
       (λ _, injectStats "README.md" (renderStats (mkStats 11 3 3))) w =
    (Return (),
     mkWorld (<["README.md" := written (mkStats 11 3 3)]> (files w))
             [("README.md", written (mkStats 10 2 2));
              ("README.md", written (mkStats 11 3 3))]).
Proof.
  intros content w written.
  apply (inject_twice "README.md" (mkStats 10 2 2) (mkStats 11 3 3) w
           (text "# Profile ") (text "old badges") (text " footer")).
  - reflexivity.
  - apply includes_false. reflexivity.
  - apply includes_false. reflexivity.
Defined.

(** ** More on patching *)

Section PatcherMore.

Variable README_PATH : string.

Implicit Types (content statsBlock before mid after : list ascii) (w : world).

Lemma getSubstitution_app_plain matched before after prefix replacement :
  "$"%char ∉ prefix →
  getSubstitution matched before after (prefix ++ replacement) =
    prefix ++ getSubstitution matched before after replacement.
Proof.
  induction prefix as [|c prefix IH]; [done|].
  intros [Hc Hrest]%not_elem_of_cons. simpl.
  rewrite decide_False by done. by rewrite IH.
Qed.

Lemma getSubstitution_matched matched before after replacement :
  getSubstitution matched before after ("$"%char :: "&"%char :: replacement) =
    matched ++ getSubstitution matched before after replacement.
Proof. done. Qed.

Lemma getSubstitution_dollar matched before after replacement :
  getSubstitution matched before after ("$"%char :: "$"%char :: replacement) =
    "$"%char :: getSubstitution matched before after replacement.
Proof. done. Qed.

(** With the first span marked out, the span is replaced by the
    expansion of the block. *)
Lemma injectStats_span_expanded statsBlock w before mid after :
  files w !! README_PATH =
    Some (before ++ START_MARKER ++ mid ++ END_MARKER ++ after) →
  ¬ occursIn START_MARKER before → ¬ occursIn END_MARKER mid →
  let written :=
    before ++ getSubstitution (START_MARKER ++ mid ++ END_MARKER) before after statsBlock
      ++ after in
  injectStats README_PATH statsBlock w =
    (Return (), mkWorld (<[README_PATH := written]> (files w))
                        (writes w ++ [(README_PATH, written)])).
Proof.
  intros Hfile Hbefore Hmid.
  rewrite (injectStats_present _ _ _ _ Hfile).
  - unfold replace. by rewrite exec_spanPattern_first.
  - apply includes_occursIn. by exists before, (mid ++ END_MARKER ++ after).
  - apply includes_occursIn. exists (before ++ START_MARKER ++ mid), after.
    by rewrite <- !app_assoc.
Qed.

End PatcherMore.

(** X13.  [injectStats] hands the block to [replace] as a replacement
    text: a block without [$] is written in place of the span as it is,
    but [$&] in a block is written as the span that was there and [$$] as
    one [$]. *)
Theorem inject_expands_dollar_patterns
    (README_PATH : string) (w : world) (before mid after prefix suffix : list ascii) :
  files w !! README_PATH =
    Some (before ++ START_MARKER ++ mid ++ END_MARKER ++ after) →
  ¬ occursIn START_MARKER before → ¬ occursIn END_MARKER mid →
  "$"%char ∉ prefix → "$"%char ∉ suffix →
  let wrote statsBlock data :=
    injectStats README_PATH statsBlock w =
      (Return (), mkWorld (<[README_PATH := before ++ data ++ after]> (files w))
                          (writes w ++ [(README_PATH, before ++ data ++ after)])) in
  wrote (prefix ++ suffix) (prefix ++ suffix) ∧
  wrote (prefix ++ text "$&" ++ suffix)
        (prefix ++ (START_MARKER ++ mid ++ END_MARKER) ++ suffix) ∧
  wrote (prefix ++ text "$$" ++ suffix) (prefix ++ text "$" ++ suffix).
Proof.
  intros Hfile Hbefore Hmid Hprefix Hsuffix wrote. unfold wrote.
  rewrite !(injectStats_span_expanded README_PATH _ w before mid after) by done.
  cbv zeta.
  change (text "$&" ++ suffix) with ("$"%char :: "&"%char :: suffix).
  change (text "$$" ++ suffix) with ("$"%char :: "$"%char :: suffix).
  split; [|split]; rewrite getSubstitution_app_plain by done.
  - by rewrite getSubstitution_plain.
  - by rewrite getSubstitution_matched, getSubstitution_plain.
  - by rewrite getSubstitution_dollar, getSubstitution_plain.
Qed.

Lemma inject_expands_dollar_patterns_witness :
  let content := text "a " ++ START_MARKER ++ text "b" ++ END_MARKER ++ text " c" in
  let w := mkWorld {[ "README.md" := content ]} [] in
  let kept := text "a [" ++ (START_MARKER ++ text "b" ++ END_MARKER) ++ text "] c" in
  injectStats "README.md" (text "[$&]") w =
    (Return (), mkWorld (<["README.md" := kept]> (files w)) [("README.md", kept)]).
Proof.
  intros content w kept.
  destruct (inject_expands_dollar_patterns "README.md" w
              (text "a ") (text "b") (text " c") (text "[") (text "]"))
    as (_ & Hkept & _).
  - reflexivity.
  - apply includes_false. reflexivity.
  - apply includes_false. reflexivity.
  - apply (bool_decide_unpack _). vm_compute. exact I.
  - apply (bool_decide_unpack _). vm_compute. exact I.
  - exact Hkept.
Defined.

(** ** More on the aggregated days *)

Section AggregatorMore.

Variable StringToNumber : string → number.
Variable parseDate : string → option Z.
Variable today : Z.

Implicit Types (x y day : Day number) (days sorted : list (Day number)).

Local Abbreviation R := (notLater parseDate).

Lemma comesAfter_true x y :
  comesAfter parseDate x y = true ↔
  ∃ tx ty, parseDate (date x) = Some tx ∧ parseDate (date y) = Some ty ∧ ty < tx.
Proof.
  unfold comesAfter.
  destruct (parseDate (date x)) as [tx|], (parseDate (date y)) as [ty|];
    try (split; [done | by intros (? & ? & ? & ? & ?)]).
  rewrite Z.ltb_lt. split; [by eauto|]. by intros (? & ? & [= <-] & [= <-] & ?).
Qed.

Lemma notAfterToday_true day :
  notAfterToday parseDate today day = true ↔
  ∃ t, parseDate (date day) = Some t ∧ t ≤ today.
Proof.
  unfold notAfterToday. destruct (parseDate (date day)) as [t|].
  - rewrite Z.leb_le. split; [by eauto|]. by intros (? & [= <-] & ?).
  - split; [done | by intros (? & ? & _)].
Qed.

Lemma notLater_trans x y z : R x y → R y z → R x z.
Proof.
  intros (tx & ty & Hx & Hy & Hle) (ty' & tz & Hy' & Hz & Hle').
  exists tx, tz. simplify_eq. repeat split; [done..|lia].
Qed.

(** Inserting a dated day into dated days in order keeps them in order. *)
Lemma insertDay_sorted x sorted :
  is_Some (parseDate (date x)) →
  Forall (λ day, is_Some (parseDate (date day))) sorted →
  StronglySorted R sorted → StronglySorted R (insertDay parseDate x sorted).
Proof.
  intros [tx Hx] Hdated Hsorted.
  induction Hsorted as [|y rest Hrest IH Hy]; simpl.
  { repeat constructor. }
  apply Forall_cons in Hdated as [[ty Hty] Hdated].
  destruct (comesAfter parseDate x y) eqn:Hafter.
  - apply comesAfter_true in Hafter as (tx' & ty' & Hx' & Hy' & Hlt).
    rewrite Hx in Hx'. rewrite Hty in Hy'. injection Hx' as <-. injection Hy' as <-.
    constructor; [by apply IH|].
    rewrite insertDay_Permutation. constructor; [|done].
    exists ty, tx. repeat split; [done..|lia].
  - assert (R x y) as Hxy.
    { exists tx, ty. repeat split; [done..|].
      unfold comesAfter in Hafter. rewrite Hx, Hty in Hafter.
      by apply Z.ltb_ge in Hafter. }
    constructor; [by constructor|]. constructor; [done|].
    eapply Forall_impl; [exact Hy|]. intros z. by apply notLater_trans.
Qed.

Lemma sortDays_sorted days :
  Forall (λ day, is_Some (parseDate (date day))) days →
  StronglySorted R (sortDays parseDate days).
Proof.
  induction 1 as [|x days Hx Hdays IH]; simpl; [constructor|].
  apply insertDay_sorted; [done| |done]. by rewrite sortDays_Permutation.
Qed.

(** Days in order stay where they are. *)
Lemma sortDays_in_order days :
  StronglySorted R days → sortDays parseDate days = days.
Proof.
  induction 1 as [|x days Hdays IH Hx]; simpl; [done|].
  rewrite IH. destruct days as [|y days]; [done|]. simpl.
  apply Forall_inv in Hx as (tx & ty & Hx & Hy & Hle).
  unfold comesAfter. rewrite Hx, Hy. by destruct (Z.ltb_spec ty tx); [lia|].
Qed.

(** Sorting keeps the days of one date in the order they had. *)
Lemma insertDay_same_date (t : Z) x sorted :
  filter (λ day, parseDate (date day) = Some t) (insertDay parseDate x sorted) =
  filter (λ day, parseDate (date day) = Some t) (x :: sorted).
Proof.
  induction sorted as [|y rest IH]; simpl; [done|].
  destruct (comesAfter parseDate x y) eqn:Hafter; [|done].
  apply comesAfter_true in Hafter as (tx & ty & Hx & Hy & Hlt).
  rewrite (filter_cons _ y), IH, !filter_cons.
  repeat case_decide; simplify_eq; try done; lia.
Qed.

Lemma sortDays_same_date (t : Z) days :
  filter (λ day, parseDate (date day) = Some t) (sortDays parseDate days) =
  filter (λ day, parseDate (date day) = Some t) days.
Proof.
  induction days as [|x days IH]; simpl; [done|].
  by rewrite insertDay_same_date, !filter_cons, IH.
Qed.

End AggregatorMore.

(** X14.  The aggregated days are in ascending order of date, and every
    one of them has a valid date that is not after the current instant. *)
Theorem aggregated_days_in_order
    (StringToNumber : string → number) (parseDate : string → option Z) (today : Z)
    (calendars : list calendar) :
  let days := fetchAllContributionDays StringToNumber parseDate today calendars in
  StronglySorted (notLater parseDate) days ∧
  Forall (λ day, ∃ t, parseDate (date day) = Some t ∧ t ≤ today) days.
Proof.
  cbv zeta. unfold fetchAllContributionDays.
  assert (Forall (λ day : Day number, ∃ t, parseDate (date day) = Some t ∧ t ≤ today)
            (filter (λ day, notAfterToday parseDate today day = true)
                    (collectDays StringToNumber calendars))) as Hkept.
  { apply Forall_forall. intros day [Hday _]%list_elem_of_filter.
    by apply notAfterToday_true. }
  split; [|by rewrite sortDays_Permutation].
  apply sortDays_sorted. eapply Forall_impl; [exact Hkept|].
  intros day (t & -> & _). by eexists.
Qed.

(** X15.  Days that the responses give in ascending order of date, none
    of them after the current instant, are returned as they came. *)
Theorem chronological_days_unchanged
    (StringToNumber : string → number) (parseDate : string → option Z) (today : Z)
    (calendars : list calendar) :
  StronglySorted (notLater parseDate) (collectDays StringToNumber calendars) →
  Forall (λ day, ∃ t, parseDate (date day) = Some t ∧ t ≤ today)
         (collectDays StringToNumber calendars) →
  fetchAllContributionDays StringToNumber parseDate today calendars =
    toDay StringToNumber <$> rawDays calendars.
Proof.
  intros Hsorted Hkept. unfold fetchAllContributionDays.
  rewrite filter_keeps_all.
  - rewrite sortDays_in_order by done. apply collectDays_raw.
  - eapply Forall_impl; [exact Hkept|]. intros day. apply notAfterToday_true.
Qed.

Lemma chronological_days_unchanged_witness :
  let parseDate := λ s : string,
    if decide (s = "1970-01-01") then Some 0
    else if decide (s = "1970-01-02") then Some 86400000 else None in
  let response :=
    mkCalendar [mkWeek [mkRaw "1970-01-01" (VNumber (Fin 2));
                        mkRaw "1970-01-02" (VNumber (Fin 5))]] in
  fetchAllContributionDays (λ _, NaN) parseDate 86400000 [response] =
    [mkDay "1970-01-01" (Fin 2); mkDay "1970-01-02" (Fin 5)].
Proof.
  intros parseDate response.
  apply (chronological_days_unchanged (λ _, NaN) parseDate 86400000 [response]).
  - constructor; [constructor; [constructor|constructor]|].
    constructor; [|constructor]. exists 0, 86400000.
    split; [reflexivity|]. split; [reflexivity|lia].
  - constructor; [exists 0; split; [reflexivity|lia]|].
    constructor; [exists 86400000; split; [reflexivity|lia]|constructor].
Defined.

(** X16.  Among the aggregated days, those of one date that is not after
    the current instant are the days of that date from the responses, in
    the order of the responses. *)
Theorem same_date_days_keep_order
    (StringToNumber : string → number) (parseDate : string → option Z) (today : Z)
    (calendars : list calendar) (t : Z) :
  t ≤ today →
  filter (λ day, parseDate (date day) = Some t)
         (fetchAllContributionDays StringToNumber parseDate today calendars) =
  filter (λ day, parseDate (date day) = Some t)
         (toDay StringToNumber <$> rawDays calendars).
Proof.
  intros Ht. unfold fetchAllContributionDays.
  rewrite sortDays_same_date, collectDays_raw, list_filter_filter.
  apply list_filter_iff. intros day. split; [by intros [? _]|].
  intros Hday. split; [done|]. apply notAfterToday_true. by exists t.
Qed.

Lemma same_date_days_keep_order_witness :
  let parseDate := λ s : string, if decide (s = "1970-01-01") then Some 0 else None in
  let response :=
    mkCalendar [mkWeek [mkRaw "1970-01-01" (VNumber (Fin 2));
                        mkRaw "1970-01-01" (VNumber (Fin 5))]] in
  filter (λ day, parseDate (date day) = Some 0)
         (fetchAllContributionDays (λ _, NaN) parseDate 10 [response]) =
    [mkDay "1970-01-01" (Fin 2); mkDay "1970-01-01" (Fin 5)].
Proof.
  intros parseDate response.
  rewrite (same_date_days_keep_order (λ _, NaN) parseDate 10 [response] 0).
  - reflexivity.
  - lia.
Defined.

(** ** The API client *)

Section ClientFacts.

Variable server : list request → request → outcome response.
Variable StringToNumber : string → number.
Variable parseDate : string → option Z.
Variable today : Z.
Variable getUTCFullYear : Z → Z.
Variable toISOString : Z → string.
Variable isoOfUTC : Z → Z → Z → Z → Z → Z → outcome string.

Local Abbreviation graphqlRequest := (Client.graphqlRequest server).
Local Abbreviation fetchContributionYears := (Client.fetchContributionYears server).
Local Abbreviation fetchContributionCalendar := (Client.fetchContributionCalendar server).
Local Abbreviation fetchYears :=
  (Client.fetchYears server StringToNumber today getUTCFullYear toISOString isoOfUTC).
Local Abbreviation fetchAll :=
  (Client.fetchAllContributionDays server StringToNumber parseDate today
     getUTCFullYear toISOString isoOfUTC).
Local Abbreviation yearRequest :=
  (yearRequest today getUTCFullYear toISOString isoOfUTC).

Implicit Types (token : string) (sent : list request).

Lemma graphqlRequest_sent token q v sent :
  (graphqlRequest token q v sent).2 = sent ++ [apiRequest token q v].
Proof.
  unfold Client.graphqlRequest, Client.fetch, apiBind, settle, apiThrow, apiRet.
  fold (apiRequest token q v).
  destruct (server sent (apiRequest token q v)) as [resp|e]; [|done].
  destruct (ok resp); simpl.
  - destruct (bodyJson resp) as [body|e]; [|done]. by destruct (errors body).
  - by destruct (bodyText resp).
Qed.

Lemma graphqlRequest_Return token q v sent payload :
  (graphqlRequest token q v sent).1 = Return payload ↔
  ∃ resp, server sent (apiRequest token q v) = Return resp ∧ delivers resp payload.
Proof.
  unfold Client.graphqlRequest, Client.fetch, apiBind, settle, apiThrow, apiRet, delivers.
  fold (apiRequest token q v).
  destruct (server sent (apiRequest token q v)) as [resp|e];
    [|split; [done | by intros (? & ? & _)]].
  destruct (ok resp) eqn:Hok; simpl.
  - destruct (bodyJson resp) as [body|e] eqn:Hbody.
    + destruct (errors body) as [shown|] eqn:Herr; simpl.
      * split; [done|]. intros (? & [= <-] & _ & b & Hb & He & _).
        rewrite Hbody in Hb. injection Hb as <-. congruence.
      * split.
        -- intros [= <-]. exists resp. split; [done|]. split; [done|]. by exists body.
        -- intros (? & [= <-] & _ & b & Hb & _ & <-).
           rewrite Hbody in Hb. by injection Hb as <-.
    + split; [done|]. intros (? & [= <-] & _ & b & Hb & _). congruence.
  - split; [by destruct (bodyText resp)|].
    intros (? & [= <-] & ? & _). congruence.
Qed.

Lemma graphqlRequest_eq token q v sent :
  graphqlRequest token q v sent =
    ((graphqlRequest token q v sent).1, sent ++ [apiRequest token q v]).
Proof. rewrite <- graphqlRequest_sent. by destruct (graphqlRequest token q v sent). Qed.

Lemma graphqlRequest_run token q v sent :
  ∃ result, graphqlRequest token q v sent = (result, sent ++ [apiRequest token q v]) ∧
    ∀ payload, result = Return payload ↔
      ∃ resp, server sent (apiRequest token q v) = Return resp ∧ delivers resp payload.
Proof.
  exists (graphqlRequest token q v sent).1. split; [apply graphqlRequest_eq|].
  intros payload. apply graphqlRequest_Return.
Qed.

Lemma fetchContributionYears_run token sent :
  let req := apiRequest token yearsQuery (mkVariables LOGIN None None) in
  ∃ result, fetchContributionYears token sent = (result, sent ++ [req]) ∧
    ∀ years, result = Return years ↔
      ∃ resp payload, server sent req = Return resp ∧ delivers resp payload ∧
                      years = default [] (yearsOf payload).
Proof.
  intros req. unfold Client.fetchContributionYears, apiBind, apiRet.
  destruct (graphqlRequest_run token yearsQuery (mkVariables LOGIN None None) sent)
    as (result & -> & Hresult).
  fold req in Hresult. destruct result as [payload|e].
  - eexists. split; [done|]. intros years. split.
    + intros [= <-]. destruct (proj1 (Hresult payload) eq_refl) as (resp & ? & ?).
      by exists resp, payload.
    + intros (resp & payload' & Hresp & Hdel & ->).
      assert (Return payload = Return payload') as [= <-].
      { apply Hresult. by exists resp. }
      done.
  - eexists. split; [done|]. intros years. split; [done|].
    intros (resp & payload' & Hresp & Hdel & _).
    assert (Throw e = Return payload') as [=]. apply Hresult. by exists resp.
Qed.

Lemma fetchContributionCalendar_run token start stop sent :
  let req := apiRequest token calendarQuery (mkVariables LOGIN (Some start) (Some stop)) in
  ∃ result, fetchContributionCalendar token start stop sent = (result, sent ++ [req]) ∧
    ∀ cal, result = Return cal ↔
      ∃ resp payload, server sent req = Return resp ∧ delivers resp payload ∧
                      calendarOf payload = Some cal.
Proof.
  intros req. unfold Client.fetchContributionCalendar, apiBind, apiRet, apiThrow.
  destruct (graphqlRequest_run token calendarQuery
              (mkVariables LOGIN (Some start) (Some stop)) sent)
    as (result & -> & Hresult).
  fold req in Hresult. destruct result as [payload|e].
  - fold (calendarOf payload).
    destruct (calendarOf payload) as [cal|] eqn:Hcal; eexists; (split; [done|]);
      intros cal'; split.
    + intros [= <-]. destruct (proj1 (Hresult payload) eq_refl) as (resp & ? & ?).
      by exists resp, payload.
    + intros (resp & payload' & Hresp & Hdel & Hcal').
      assert (Return payload = Return payload') as [= <-].
      { apply Hresult. by exists resp. }
      congruence.
    + done.
    + intros (resp & payload' & Hresp & Hdel & Hcal').
      assert (Return payload = Return payload') as [= <-].
      { apply Hresult. by exists resp. }
      congruence.
  - eexists. split; [done|]. intros cal. split; [done|].
    intros (resp & payload' & Hresp & Hdel & _).
    assert (Throw e = Return payload') as [=]. apply Hresult. by exists resp.
Qed.

Lemma fetchYears_cons token year rest days sent :
  fetchYears token (year :: rest) days sent =
    match isoOfUTC year 0 1 0 0 0 with
    | Throw e => (Throw e, sent)
    | Return start =>
        match (if decide (year = getUTCFullYear today)
               then Return (toISOString today)
               else isoOfUTC year 11 31 23 59 59) with
        | Throw e => (Throw e, sent)
        | Return stop =>
            match fetchContributionCalendar token start stop sent with
            | (Return cal, sent') =>
                fetchYears token rest (days ++ flattenCalendar StringToNumber cal) sent'
            | (Throw e, sent') => (Throw e, sent')
            end
        end
    end.
Proof.
  cbn [Client.fetchYears]. unfold apiBind, settle, apiRet.
  destruct (isoOfUTC year 0 1 0 0 0) as [start|e]; [|done].
  by destruct (decide (year = getUTCFullYear today));
    [|destruct (isoOfUTC year 11 31 23 59 59)].
Qed.

(** Whatever the loop comes to, it has sent calendar requests only, no
    more than one for each year. *)
Lemma fetchYears_requests token years :
  ∀ days sent result sent',
    fetchYears token years days sent = (result, sent') →
    ∃ requests,
      sent' = sent ++ requests ∧ (length requests ≤ length years)%nat ∧
      Forall (λ req, ∃ v, req = apiRequest token calendarQuery v) requests.
Proof.
  induction years as [|year rest IH]; intros days sent result sent'.
  { intros [= <- <-]. exists []. by rewrite app_nil_r. }
  rewrite fetchYears_cons.
  assert (∃ requests : list request, sent = sent ++ requests ∧
            (length requests ≤ length (year :: rest))%nat ∧
            Forall (λ req, ∃ v, req = apiRequest token calendarQuery v) requests) as Hnone.
  { exists []. rewrite app_nil_r. repeat split; [simpl; lia | constructor]. }
  destruct (isoOfUTC year 0 1 0 0 0) as [start|e]; [|by intros [= <- <-]].
  destruct (if decide (year = getUTCFullYear today) then _ else _) as [stop|e];
    [|by intros [= <- <-]].
  destruct (fetchContributionCalendar_run token start stop sent) as (r & -> & _).
  destruct r as [cal|e].
  - intros Hrest. destruct (IH _ _ _ _ Hrest) as (requests & -> & Hlen & Hall).
    eexists (_ :: requests). rewrite <- app_assoc. split; [done|].
    split; [simpl; lia|]. constructor; [by eexists | done].
  - intros [= <- <-]. eexists [_]. split; [done|].
    split; [simpl; lia|]. constructor; [by eexists | constructor].
Qed.

(** When the loop returns, it has sent the request of each year in turn
    and pushed the days of the calendars delivered for them. *)
Lemma fetchYears_Return token years :
  ∀ days sent days' sent',
    fetchYears token years days sent = (Return days', sent') →
    ∃ requests calendars,
      sent' = sent ++ requests ∧
      Forall2 (yearRequest token) years requests ∧
      served server sent requests calendars ∧
      days' = foldl (λ days cal, days ++ flattenCalendar StringToNumber cal) days calendars.
Proof.
  induction years as [|year rest IH]; intros days sent days' sent'.
  { intros [= <- <-]. exists [], []. by rewrite app_nil_r. }
  rewrite fetchYears_cons.
  destruct (isoOfUTC year 0 1 0 0 0) as [start|e] eqn:Hstart; [|done].
  destruct (if decide (year = getUTCFullYear today) then _ else _) as [stop|e] eqn:Hstop;
    [|done].
  destruct (fetchContributionCalendar_run token start stop sent) as (r & -> & Hr).
  destruct r as [cal|e]; [|done].
  intros Hrest. destruct (IH _ _ _ _ Hrest) as (requests & calendars & -> & Hreq & Hserved & ->).
  eexists (_ :: requests), (cal :: calendars). rewrite <- app_assoc.
  split; [done|]. split; [|split; [|done]].
  - constructor; [|done]. exists start, stop. split; [done|]. split; [done|].
    destruct (decide (year = getUTCFullYear today)); [by injection Hstop as <- | done].
  - split; [|done]. by apply Hr.
Qed.

(** X17.  [graphqlRequest] sends one request, whatever comes of it: a
    POST to the endpoint with the bearer token, the query and the
    variables.  It returns the data of the response exactly when the
    response is ok, its body parses and has no errors; a response that is
    not ok makes it throw an error naming the status and the text of the
    body, and errors in the body make it throw an error showing them. *)
Theorem graphqlRequest_once token (q : string) (v : variables) sent :
  let req := apiRequest token q v in
  ∃ result,
    graphqlRequest token q v sent = (result, sent ++ [req]) ∧
    (∀ payload, result = Return payload ↔
       ∃ resp, server sent req = Return resp ∧ delivers resp payload) ∧
    (∀ resp shown, server sent req = Return resp → ok resp = false →
       bodyText resp = Return shown →
       result = Throw (Error (String.concat ""
         ["GitHub API request failed: ";
          String.string_of_list_ascii (decimal (status resp)); " ";
          statusText resp; " - "; shown]))) ∧
    (∀ resp body shown, server sent req = Return resp → ok resp = true →
       bodyJson resp = Return body → errors body = Some shown →
       result = Throw (Error (String.append "GitHub API returned errors: " shown))).
Proof.
  intros req. exists (graphqlRequest token q v sent).1.
  split; [apply graphqlRequest_eq|]. split; [apply graphqlRequest_Return|].
  unfold Client.graphqlRequest, Client.fetch, apiBind, settle, apiThrow, apiRet.
  fold (apiRequest token q v). fold req. split.
  - by intros resp shown -> -> ->.
  - by intros resp body shown -> -> -> ->.
Qed.

(** X18.  Unless the response to the first request delivers an array of
    years that is not empty, [fetchAllContributionDays] throws and has sent
    that one request only; when the response delivers data, the error is
    the one for no contribution years. *)
Theorem no_years_no_calendar_requests token sent :
  let req := apiRequest token yearsQuery (mkVariables LOGIN None None) in
  (¬ ∃ resp payload years,
       server sent req = Return resp ∧ delivers resp payload ∧
       yearsOf payload = Some years ∧ years ≠ []) →
  ∃ e,
    fetchAll token sent = (Throw e, sent ++ [req]) ∧
    ((∃ resp payload, server sent req = Return resp ∧ delivers resp payload) →
     e = Error "No contribution years found for the user.").
Proof.
  intros req Hnone. unfold Client.fetchAllContributionDays, apiBind, apiThrow.
  destruct (fetchContributionYears_run token sent) as (result & -> & Hresult).
  fold req in Hresult. destruct result as [years|e].
  - destruct (proj1 (Hresult years) eq_refl) as (resp & payload & Hresp & Hdel & Hyears).
    destruct (decide (length years = 0%nat)) as [Hlen|Hlen]; [by eexists|].
    exfalso. apply Hnone. exists resp, payload, years.
    split; [done|]. split; [done|]. split.
    + destruct (yearsOf payload) as [ys|]; simpl in Hyears; subst years; [done|].
      exfalso. by apply Hlen.
    + by intros ->.
  - exists e. split; [done|]. intros (resp & payload & Hresp & Hdel).
    assert (Throw e = Return (default [] (yearsOf payload))) as [=].
    apply Hresult. by exists resp, payload.
Qed.

(** X19.  When [fetchAllContributionDays] returns, the first response
    delivered years, not none; behind the first request it has sent the
    calendar request of each year, the years in ascending order, and the
    days it returns are the aggregate of the calendars delivered for
    those requests. *)
Theorem fetched_days_from_calendars token sent days sent' :
  fetchAll token sent = (Return days, sent') →
  let first := apiRequest token yearsQuery (mkVariables LOGIN None None) in
  ∃ years requests calendars,
    (∃ resp payload, server sent first = Return resp ∧ delivers resp payload ∧
                     yearsOf payload = Some years) ∧
    years ≠ [] ∧
    sent' = sent ++ first :: requests ∧
    Sorted Z.le (sortYears years) ∧ sortYears years ≡ₚ years ∧
    Forall2 (yearRequest token) (sortYears years) requests ∧
    served server (sent ++ [first]) requests calendars ∧
    days = fetchAllContributionDays StringToNumber parseDate today calendars.
Proof.
  unfold Client.fetchAllContributionDays, apiBind, apiThrow, apiRet.
  destruct (fetchContributionYears_run token sent) as (result & -> & Hresult).
  destruct result as [years|e]; [|done].
  destruct (decide (length years = 0%nat)) as [Hlen|Hlen]; [done|].
  destruct (Client.fetchYears _ _ _ _ _ _ _ _ _ _) as [[days'|e] sent''] eqn:Hloop; [|done].
  intros [= <- <-].
  apply fetchYears_Return in Hloop as (requests & calendars & -> & Hreq & Hserved & ->).
  destruct (proj1 (Hresult years) eq_refl) as (resp & payload & Hresp & Hdel & Hyears).
  exists years, requests, calendars. split.
  { exists resp, payload. split; [done|]. split; [done|].
    destruct (yearsOf payload) as [ys|]; simpl in Hyears; subst years; [done|].
    exfalso. by apply Hlen. }
  split; [by intros ->|]. split; [by rewrite <- app_assoc|].
  split; [apply (Sorted_merge_sort Z.le)|]. split; [apply merge_sort_Permutation|].
  done.
Qed.

(** X20.  Whatever [fetchAllContributionDays] comes to, every request it
    has sent went to the API endpoint with the bearer token: first the
    request for the years, then calendar requests only, and no more of
    those than the first response delivered years. *)
Theorem requests_stay_on_endpoint token sent result sent' :
  fetchAll token sent = (result, sent') →
  let first := apiRequest token yearsQuery (mkVariables LOGIN None None) in
  ∃ requests,
    sent' = sent ++ first :: requests ∧
    Forall (λ req, ∃ v, req = apiRequest token calendarQuery v) requests ∧
    ∀ resp payload,
      server sent first = Return resp → delivers resp payload →
      (length requests ≤ length (default [] (yearsOf payload)))%nat.
Proof.
  unfold Client.fetchAllContributionDays, apiBind, apiThrow, apiRet.
  destruct (fetchContributionYears_run token sent) as (r & -> & Hr).
  assert (∀ rest : list request, rest = [] →
            Forall (λ req, ∃ v, req = apiRequest token calendarQuery v) rest ∧
            ∀ resp payload,
              server sent (apiRequest token yearsQuery (mkVariables LOGIN None None))
                = Return resp → delivers resp payload →
              (length rest ≤ length (default [] (yearsOf payload)))%nat) as Hnil.
  { intros rest ->. split; [constructor|]. intros. simpl. lia. }
  destruct r as [years|e]; [|intros [= <- <-]; exists []; by split; [|apply Hnil]].
  destruct (decide (length years = 0%nat));
    [intros [= <- <-]; exists []; by split; [|apply Hnil]|].
  destruct (Client.fetchYears _ _ _ _ _ _ _ _ _ _) as [r sent''] eqn:Hloop.
  apply fetchYears_requests in Hloop as (requests & -> & Hlen & Hall).
  assert (sent' = (sent ++ [apiRequest token yearsQuery (mkVariables LOGIN None None)])
                    ++ requests → ∃ requests0,
            sent' = sent ++ apiRequest token yearsQuery (mkVariables LOGIN None None)
                      :: requests0 ∧
            Forall (λ req, ∃ v, req = apiRequest token calendarQuery v) requests0 ∧
            ∀ resp payload,
              server sent (apiRequest token yearsQuery (mkVariables LOGIN None None))
                = Return resp → delivers resp payload →
              (length requests0 ≤ length (default [] (yearsOf payload)))%nat) as Hdone.
  { intros ->. exists requests. rewrite <- app_assoc. split; [done|]. split; [done|].
    intros resp payload Hresp Hdel.
    assert (Return years = Return (default [] (yearsOf payload))) as [= <-].
    { apply Hr. by exists resp, payload. }
    unfold sortYears in Hlen. by rewrite merge_sort_Permutation in Hlen. }
  destruct r; intros [= <- <-]; by apply Hdone.
Qed.

End ClientFacts.

Lemma graphqlRequest_once_witness :
  let server := λ (_ : list request) (_ : request),
    Return (mkResponse false 401 "Unauthorized" (Return "Bad credentials")
                       (Throw (Error "not read"))) in
  Client.graphqlRequest server "tok" yearsQuery (mkVariables LOGIN None None) [] =
    (Throw (Error "GitHub API request failed: 401 Unauthorized - Bad credentials"),
     [apiRequest "tok" yearsQuery (mkVariables LOGIN None None)]).
Proof.
  intros server.
  destruct (graphqlRequest_once server "tok" yearsQuery (mkVariables LOGIN None None) [])
    as (result & Hrun & _ & Hfailed & _).
  rewrite Hrun. f_equal.
  apply (Hfailed (mkResponse false 401 "Unauthorized" (Return "Bad credentials")
                             (Throw (Error "not read"))) "Bad credentials");
    reflexivity.
Defined.

Lemma no_years_no_calendar_requests_witness :
  let server := λ (_ : list request) (_ : request),
    Return (mkResponse true 200 "OK" (Return "")
              (Return (mkBody None (Some (mkData None))))) in
  Client.fetchAllContributionDays server (λ _, NaN) (λ _, None) 0
    (λ _, 1970) (λ _, "1970-01-01T00:00:00.000Z") (λ _ _ _ _ _ _, Return "") "tok" [] =
    (Throw (Error "No contribution years found for the user."),
     [apiRequest "tok" yearsQuery (mkVariables LOGIN None None)]).
Proof.
  intros server.
  destruct (no_years_no_calendar_requests server (λ _, NaN) (λ _, None) 0
              (λ _, 1970) (λ _, "1970-01-01T00:00:00.000Z") (λ _ _ _ _ _ _, Return "")
              "tok" []) as (e & Hrun & He).
  - intros (resp & payload & years & Hresp & (_ & body & Hbody & _ & Hdata) & Hyears & _).
    injection Hresp as <-. injection Hbody as <-. subst payload. discriminate Hyears.
  - rewrite Hrun, He; [reflexivity|].
    eexists _, _. split; [reflexivity|]. split; [reflexivity|].
    eexists. split; [reflexivity|]. split; reflexivity.
Defined.

Lemma fetched_days_from_calendars_witness :
  let server := λ (_ : list request) (req : request),
    if decide (query req = yearsQuery)
    then Return (mkResponse true 200 "OK" (Return "")
           (Return (mkBody None (Some (mkData (Some (mkUser (Some
              (mkCollection (Some [2021; 2020]) None)))))))))
    else Return (mkResponse true 200 "OK" (Return "")
           (Return (mkBody None (Some (mkData (Some (mkUser (Some
              (mkCollection None (Some (mkCalendar [mkWeek
                 [mkRaw (default "" (from (vars req))) (VNumber (Fin 3))]]))))))))))) in
  let isoOfUTC := λ (y month _ _ _ _ : Z),
    Return (if decide (month = 0)
            then (if decide (y = 2020) then "2020-01-01" else "2021-01-01")
            else "2020-12-31") in
  let parseDate := λ s : string,
    if decide (s = "2020-01-01") then Some 1
    else if decide (s = "2021-01-01") then Some 2 else None in
  ∃ (years : list Z) (requests : list request),
    sortYears years = [2020; 2021] ∧ length requests = 2%nat ∧
    (Client.fetchAllContributionDays server (λ _, NaN) parseDate 5
       (λ _, 2021) (λ _, "now") isoOfUTC "tok" []).1 =
      Return [mkDay "2020-01-01" (Fin 3); mkDay "2021-01-01" (Fin 3)].
Proof.
  intros server isoOfUTC parseDate.
  destruct (Client.fetchAllContributionDays server (λ _, NaN) parseDate 5
              (λ _, 2021) (λ _, "now") isoOfUTC "tok" []) as [result sent'] eqn:Hrun.
  assert (result = Return [mkDay "2020-01-01" (Fin 3); mkDay "2021-01-01" (Fin 3)])
    as Hresult.
  { vm_compute in Hrun. by injection Hrun as <- _. }
  subst result.
  destruct (fetched_days_from_calendars server (λ _, NaN) parseDate 5
              (λ _, 2021) (λ _, "now") isoOfUTC "tok" [] _ _ Hrun)
    as (years & requests & calendars & (resp & payload & Hresp & Hdel & Hyears)
          & _ & _ & _ & _ & Hreq & _).
  exists years, requests.
  assert (years = [2021; 2020]) as ->.
  { destruct Hdel as (_ & body & Hbody & _ & Hdata).
    injection Hresp as <-. injection Hbody as <-. subst payload.
    by injection Hyears as <-. }
  split; [reflexivity|]. split; [|reflexivity].
  apply Forall2_length in Hreq. rewrite <- Hreq. reflexivity.
Defined.

Lemma requests_stay_on_endpoint_witness :
  let server := λ (_ : list request) (_ : request),
    Return (mkResponse true 200 "OK" (Return "")
              (Return (mkBody None (Some (mkData (Some (mkUser (Some
                 (mkCollection (Some [2024]) None))))))))) in
  ∃ requests : list request,
    (Client.fetchAllContributionDays server (λ _, NaN) (λ _, None) 0
       (λ _, 2024) (λ _, "now") (λ _ _ _ _ _ _, Return "2024-01-01T00:00:00.000Z")
       "tok" []).2 =
      apiRequest "tok" yearsQuery (mkVariables LOGIN None None) :: requests ∧
    (length requests ≤ 1)%nat.
Proof.
  intros server.
  destruct (Client.fetchAllContributionDays server (λ _, NaN) (λ _, None) 0
       (λ _, 2024) (λ _, "now") (λ _ _ _ _ _ _, Return "2024-01-01T00:00:00.000Z")
       "tok" []) as [result sent'] eqn:Hrun.
  destruct (requests_stay_on_endpoint server (λ _, NaN) (λ _, None) 0
       (λ _, 2024) (λ _, "now") (λ _ _ _ _ _ _, Return "2024-01-01T00:00:00.000Z")
       "tok" [] result sent' Hrun) as (requests & -> & _ & Hbound).
  exists requests. split; [reflexivity|].
  eapply (Hbound _ (Some (mkData (Some (mkUser (Some (mkCollection (Some [2024]) None))))))).
  - reflexivity.
  - split; [reflexivity|]. eexists. split; [reflexivity|]. split; reflexivity.
Defined.
